(** * FitToCSV: lap extraction and record-to-lap classification

    A shallow embedding of [main.py] (FIT -> CSV converter): the lap
    extractor [collect_laps], the cursor-based interval lookup
    [map_record_to_lap_index] and the two table writers, followed by the
    properties of the specification that concern them. *)

From Stdlib Require Import String ZArith QArith Qround Qabs Qpower.
From Stdlib Require Import List Bool Lia Lqa.
From Stdlib Require Import Permutation.
From Equations Require Import Equations.
From Equations.Prop Require Import Logic.
Import ListNotations.
Open Scope Z_scope.

(** ** Data model *)

(** A [datetime] is a point on the (naive) time line, counted in
    microseconds, the resolution of Python's [datetime] and [timedelta].
    The time line is not cut off at the years 1 and 9999. *)
Definition instant := Z.

(** An element of [lap_intervals]: the tuple [(lap_index, start, end)];
    [None] is Python's [None]. *)
Definition interval : Type := Z * option instant * option instant.

Definition iv_id (iv : interval) : Z := fst (fst iv).
Definition iv_start (iv : interval) : option instant := snd (fst iv).
Definition iv_end (iv : interval) : option instant := snd iv.

(** ** The interval lookup *)

(** The [while i < n] loop of [map_record_to_lap_index], started at
    position [i].  [lap_intervals[i]] exists exactly when [i < n], so the
    loop test and the indexing are one lookup.  The trailing [break] is the
    third outcome of the bounded case ([ts < start]). *)
Equations? scan (ts : instant) (lap_intervals : list interval) (i : nat)
  : option Z * nat by wf (length lap_intervals - i)%nat lt :=
scan ts lap_intervals i with inspect (nth_error lap_intervals i) := {
  | exist _ None _ => (None, i)
  | exist _ (Some (lap_id, Some start, Some end_)) _ =>
      if (start <=? ts) && (ts <=? end_) then (Some lap_id, i)
      else if end_ <? ts then scan ts lap_intervals (i + 1)
      else (None, i)
  | exist _ (Some (lap_id, Some start, None)) _ =>
      if start <=? ts then (Some lap_id, i)
      else scan ts lap_intervals (i + 1)
  | exist _ (Some (lap_id, None, _)) _ =>
      scan ts lap_intervals (i + 1) }.
Proof.
  all: match goal with
       | H : nth_error ?l ?i = Some _ |- _ =>
           assert (i < length l)%nat
             by (apply nth_error_Some; rewrite H; discriminate); lia
       end.
Qed.

(** [i = max(0, min(cur_idx, n - 1))]. *)
Definition clamp (cur_idx : Z) (n : nat) : nat :=
  Z.to_nat (Z.max 0 (Z.min cur_idx (Z.of_nat n - 1))).

Definition map_record_to_lap_index (ts : option instant)
    (lap_intervals : list interval) (cur_idx : Z) : option Z * Z :=
  match ts, lap_intervals with
  | None, _ => (None, cur_idx)
  | _, [] => (None, cur_idx)
  | Some t, _ =>
      let n := length lap_intervals in
      let '(lap_id, i) := scan t lap_intervals (clamp cur_idx n) in
      (lap_id, Z.of_nat i)
  end.

(** ** Vocabulary of the classification properties *)

(** Order on start times in which an absent start comes first. *)
Definition start_le (a b : option instant) : bool :=
  match a, b with
  | None, _ => true
  | Some _, None => false
  | Some x, Some y => x <=? y
  end.

(** [r] holds from every element to every element behind it. *)
Fixpoint pairwise {A} (r : A -> A -> bool) (l : list A) : bool :=
  match l with
  | [] => true
  | a :: l' => forallb (r a) l' && pairwise r l'
  end.

(** Every interval starts no later than all the intervals behind it. *)
Definition sorted_by_start (l : list interval) : bool :=
  pairwise (fun a b => start_le (iv_start a) (iv_start b)) l.

(** The timestamps an interval can be matched with: [start .. end] with
    both ends included, [start ..] when the end is unknown, nothing when
    the start is unknown. *)
Definition covers (iv : interval) (t : instant) : bool :=
  match iv_start iv, iv_end iv with
  | Some s, Some e => (s <=? t) && (t <=? e)
  | Some s, None => s <=? t
  | None, _ => false
  end.

Definition before_end (t : instant) (e : option instant) : bool :=
  match e with
  | Some e => t <=? e
  | None => true
  end.

(** Two intervals share a timestamp. *)
Definition overlaps (a b : interval) : bool :=
  match iv_start a, iv_start b with
  | Some sa, Some sb =>
      before_end (Z.max sa sb) (iv_end a) && before_end (Z.max sa sb) (iv_end b)
  | _, _ => false
  end.

Definition non_overlapping (l : list interval) : bool :=
  pairwise (fun a b => negb (overlaps a b)) l.

(** The loop moves on from an interval: it ended before [t], or it has no
    end and starts after [t], or it has no start. *)
Definition passed (iv : interval) (t : instant) : bool :=
  match iv_start iv, iv_end iv with
  | Some _, Some e => e <? t
  | Some s, None => t <? s
  | None, _ => true
  end.

Definition ends_before (t : instant) (iv : interval) : bool :=
  match iv_end iv with
  | Some e => e <? t
  | None => false
  end.


(** ** Python values and exceptions *)

(** The exceptions the modelled code can raise. *)
Inductive exn := TypeError.

Inductive result (A : Type) :=
| Ok (a : A)
| Raise (e : exn).
Arguments Ok {A} a.
Arguments Raise {A} e.

Definition bind {A B} (r : result A) (k : A -> result B) : result B :=
  match r with
  | Ok a => k a
  | Raise e => Raise e
  end.

Notation "x <- r ;; k" := (bind r (fun x => k))
  (at level 61, r at next level, right associativity).

(** A decoded field that is not an instant: a number (a Python [int], or
    a finite [float] given by the rational it stands for) or something
    else, kept as text. *)
Inductive field_value :=
| Num (x : Q)
| Text (s : string).

(** [isinstance(v, (int, float))], giving [v] when it holds. *)
Definition is_number (v : option field_value) : option Q :=
  match v with
  | Some (Num x) => Some x
  | _ => None
  end.

(** ** Python floats *)

(** A [float] is an IEEE 754 double: 53 significant bits, round to nearest
    with ties to the even significand, the multiples of [2^-1074] below
    [2^-1022].  A finite double is given by the rational it stands for.
    Doubles end near [1.8e308]; no time of a FIT file comes near that, and
    the range is left open above. *)

(** [round(y)]: the nearest integer, ties to the even one. *)
Definition round_half_even (y : Q) : Z :=
  let f := Qfloor y in
  match ((y - inject_Z f) ?= (1 # 2))%Q with
  | Lt => f
  | Gt => f + 1
  | Eq => if Z.even f then f else f + 1
  end.

(** The exponent [e] with [2^e <= y < 2^(e+1)], for a positive [y]. *)
Definition ilog2 (y : Q) : Z :=
  let e := Z.log2 (Qnum y) - Z.log2 (Zpos (Qden y)) in
  if Qle_bool (2 ^ e)%Q y then e else e - 1.

(** The weight of the last of the 53 bits with which a double holds [x]. *)
Definition ulp_exponent (x : Q) : Z :=
  Z.max (ilog2 (Qabs x) - 52) (-1074).

(** Rounding to a double. *)
Definition nearest_double (x : Q) : Q :=
  if Qeq_bool x 0 then 0%Q
  else
    let k := ulp_exponent x in
    Qred (inject_Z (round_half_even (x * 2 ^ (- k))) * 2 ^ k)%Q.

(** [float(v)] of an [int] or a [float]. *)
Definition float (v : Q) : Q := nearest_double v.

(** The rationals that are doubles: a significand of at most 53 bits
    ([2^53] itself is [2^52] one exponent up) at an exponent from [-1074]
    on. *)
Definition is_double (q : Q) : Prop :=
  exists m k : Z,
    Z.abs m <= 2 ^ 53 /\ -1074 <= k /\ (q == inject_Z m * 2 ^ k)%Q.

(** [timedelta(seconds=x)] of a float [x], in microseconds.  The
    constructor splits [x] with [math.modf], multiplies the fraction by
    [1e6] as a float and rounds the product with [round]. *)
Definition timedelta_seconds (x : Q) : Z :=
  let seconds := Z.quot (Qnum x) (Zpos (Qden x)) in
  let secondsfrac := (x - inject_Z seconds)%Q in
  let usdouble := nearest_double (secondsfrac * inject_Z 1000000) in
  seconds * 1000000 + round_half_even usdouble.

(** [td.total_seconds()] of a [timedelta] of [us] microseconds: the true
    division [us / 10**6] of two integers, which is correctly rounded. *)
Definition total_seconds (us : Z) : Q := nearest_double (us # 1000000).

(** ** Messages of the decoder *)

(** A "lap" message; each projection is [get_value] at that field name and
    is [None] when the message does not carry the field. *)
Module LapMsg.
Record t := mk {
  start_time : option instant;
  total_timer_time : option field_value;
  total_elapsed_time : option field_value;
  timestamp : option instant;
  avg_power : option field_value;
  avg_heart_rate : option field_value;
  avg_cadence : option field_value;
  total_distance : option field_value }.
End LapMsg.

(** A "record" message. *)
Module RecordMsg.
Record t := mk {
  timestamp : option instant;
  power : option field_value;
  heart_rate : option field_value;
  cadence : option field_value;
  distance : option field_value }.
End RecordMsg.

(** What [FitFile(fit_path)] gives access to: [get_messages("lap")] and
    [get_messages("record")]. *)
Record FitFile := {
  lap_messages : list LapMsg.t;
  record_messages : list RecordMsg.t }.

Definition safe_val {M A} (msg : M) (name : M -> option A)
    (default : option A) : option A :=
  let field := name msg in
  match field with
  | Some _ => field
  | None => default
  end.

(** ** Lap extraction *)

(** The dictionary appended to [laps] for one message. *)
Record lap_dict := {
  lap_index : Z;
  lap_start_time : option instant;
  lap_end_time : option instant;
  lap_duration_s : option Q;
  lap_avg_power : option field_value;
  lap_avg_heart_rate : option field_value;
  lap_avg_cadence : option field_value;
  lap_total_distance_m : option field_value }.

(** The body of the [for i, lap in enumerate(...)] loop.  The sum
    [start + timedelta(...)] is taken on the whole time line: an end past
    the year 9999, where Python raises [OverflowError], is not cut off. *)
Definition build_lap (i : nat) (lap : LapMsg.t) : lap_dict :=
  let start := safe_val lap LapMsg.start_time None in
  let total_timer_time := safe_val lap LapMsg.total_timer_time None in
  let total_elapsed_time := safe_val lap LapMsg.total_elapsed_time None in
  let end_ :=
    match start, is_number total_timer_time with
    | Some s, Some x => Some (s + timedelta_seconds (float x))
    | _, _ =>
        match start, is_number total_elapsed_time with
        | Some s, Some x => Some (s + timedelta_seconds (float x))
        | _, _ => safe_val lap LapMsg.timestamp None
        end
    end in
  let duration_s :=
    match is_number total_timer_time with
    | Some x => Some (float x)
    | None =>
        match is_number total_elapsed_time with
        | Some x => Some (float x)
        | None =>
            match start, end_ with
            | Some s, Some e => Some (total_seconds (e - s))
            | _, _ => None
            end
        end
    end in
  {| lap_index := Z.of_nat i + 1;
     lap_start_time := start;
     lap_end_time := end_;
     lap_duration_s := duration_s;
     lap_avg_power := safe_val lap LapMsg.avg_power None;
     lap_avg_heart_rate := safe_val lap LapMsg.avg_heart_rate None;
     lap_avg_cadence := safe_val lap LapMsg.avg_cadence None;
     lap_total_distance_m := safe_val lap LapMsg.total_distance None |}.

(** The loop itself: [laps] after the messages from position [i] on. *)
Fixpoint build_laps (i : nat) (msgs : list LapMsg.t) : list lap_dict :=
  match msgs with
  | [] => []
  | m :: msgs' => build_lap i m :: build_laps (S i) msgs'
  end.

(** The value of [d["lap_start_time"] or 0]: a [datetime] is always true,
    so the key is the start itself, or the integer [0] without one. *)
Inductive sort_key :=
| KeyInt (z : Z)
| KeyTime (t : instant).

Definition start_key (d : lap_dict) : sort_key :=
  match lap_start_time d with
  | Some t => KeyTime t
  | None => KeyInt 0
  end.

(** [a < b] on keys.  Python 3 orders two integers and two datetimes and
    raises [TypeError] for a datetime against an integer. *)
Definition key_lt (a b : sort_key) : result bool :=
  match a, b with
  | KeyInt x, KeyInt y => Ok (x <? y)
  | KeyTime x, KeyTime y => Ok (x <? y)
  | _, _ => Raise TypeError
  end.

(** [list.sort(key=...)] as a stable insertion sort: an element goes
    behind the elements of the sorted tail that are strictly smaller and
    in front of the others, the ones with an equal key included.  Python
    orders the list with other comparisons, with the same outcome: a
    stable sort has one result, and no sort can place keys of both kinds
    without comparing a key of the one kind with a key of the other. *)
Fixpoint insert_by {A} (key : A -> sort_key) (x : A) (sorted : list A)
  : result (list A) :=
  match sorted with
  | [] => Ok [x]
  | y :: rest =>
      lt <- key_lt (key y) (key x) ;;
      if lt then (r <- insert_by key x rest ;; Ok (y :: r))
      else Ok (x :: y :: rest)
  end.

Fixpoint sort_by {A} (key : A -> sort_key) (l : list A) : result (list A) :=
  match l with
  | [] => Ok []
  | x :: l' => s <- sort_by key l' ;; insert_by key x s
  end.

Definition collect_laps (fitfile : FitFile) : result (list lap_dict) :=
  let laps := build_laps 0 (lap_messages fitfile) in
  sort_by start_key laps.

(** ** The two tables *)

(** [dt.isoformat()]: the text itself is not computed, the cell keeps the
    instant it prints. *)
Inductive iso_text := isoformat (dt : instant).

Definition iso_dt (dt : option instant) : option iso_text :=
  match dt with
  | None => None
  | Some d => Some (isoformat d)
  end.

(** A file written through [csv.DictWriter]: its lines in the order they
    were written, a row being the dictionary handed to [writerow]. *)
Inductive csv_line (R : Type) :=
| HeaderLine (fieldnames : list string)
| RowLine (row : R).
Arguments HeaderLine {R} fieldnames.
Arguments RowLine {R} row.

Definition writeheader {R} (fieldnames : list string)
    (f : list (csv_line R)) : list (csv_line R) :=
  f ++ [HeaderLine fieldnames].

Definition writerow {R} (row : R) (f : list (csv_line R))
  : list (csv_line R) :=
  f ++ [RowLine row].

Record record_row := {
  row_timestamp : option iso_text;
  row_power : option field_value;
  row_heart_rate : option field_value;
  row_cadence : option field_value;
  row_distance_m : option field_value;
  row_lap_index : option Z }.

Definition record_fields : list string :=
  ["timestamp"; "power"; "heart_rate"; "cadence"; "distance_m";
   "lap_index"]%string.

(** One turn of the loop over the record messages; the state is the file
    written so far and [ptr]. *)
Definition write_record (lap_intervals : list interval)
    (st : list (csv_line record_row) * Z) (rec : RecordMsg.t)
  : list (csv_line record_row) * Z :=
  let '(f, ptr) := st in
  let ts := safe_val rec RecordMsg.timestamp None in
  let power := safe_val rec RecordMsg.power None in
  let hr := safe_val rec RecordMsg.heart_rate None in
  let cad := safe_val rec RecordMsg.cadence None in
  let dist := safe_val rec RecordMsg.distance None in
  let '(lap_idx, ptr) := map_record_to_lap_index ts lap_intervals ptr in
  (writerow {| row_timestamp := iso_dt ts;
               row_power := power;
               row_heart_rate := hr;
               row_cadence := cad;
               row_distance_m := dist;
               row_lap_index := lap_idx |} f,
   ptr).

Definition write_records_csv (fitfile : FitFile)
    (lap_intervals : list interval) : list (csv_line record_row) :=
  let f := writeheader record_fields [] in
  let ptr := 0 in
  fst (fold_left (write_record lap_intervals) (record_messages fitfile)
         (f, ptr)).

Record lap_row := {
  lrow_lap_index : Z;
  lrow_lap_start_time : option iso_text;
  lrow_lap_end_time : option iso_text;
  lrow_lap_duration_s : option Q;
  lrow_lap_avg_power : option field_value;
  lrow_lap_avg_heart_rate : option field_value;
  lrow_lap_avg_cadence : option field_value;
  lrow_lap_total_distance_m : option field_value }.

Definition lap_fields : list string :=
  ["lap_index"; "lap_start_time"; "lap_end_time"; "lap_duration_s";
   "lap_avg_power"; "lap_avg_heart_rate"; "lap_avg_cadence";
   "lap_total_distance_m"]%string.

Definition write_lap (f : list (csv_line lap_row)) (lap : lap_dict)
  : list (csv_line lap_row) :=
  writerow {| lrow_lap_index := lap_index lap;
              lrow_lap_start_time := iso_dt (lap_start_time lap);
              lrow_lap_end_time := iso_dt (lap_end_time lap);
              lrow_lap_duration_s := lap_duration_s lap;
              lrow_lap_avg_power := lap_avg_power lap;
              lrow_lap_avg_heart_rate := lap_avg_heart_rate lap;
              lrow_lap_avg_cadence := lap_avg_cadence lap;
              lrow_lap_total_distance_m := lap_total_distance_m lap |} f.

Definition write_laps_csv (laps : list lap_dict) : list (csv_line lap_row) :=
  let f := writeheader lap_fields [] in
  fold_left write_lap laps f.

(** ** The pipeline *)

Definition interval_of (lap : lap_dict) : interval :=
  (lap_index lap, lap_start_time lap, lap_end_time lap).

(** [convert], with the two files it writes as its result.  Both
    [FitFile(fit_path)] objects read the same decoded file. *)
Definition convert (fitfile : FitFile)
  : result (list (csv_line record_row) * list (csv_line lap_row)) :=
  laps <- collect_laps fitfile ;;
  let lap_intervals := map interval_of laps in
  let fitfile_records := fitfile in
  let records_csv := write_records_csv fitfile_records lap_intervals in
  let laps_csv := write_laps_csv laps in
  Ok (records_csv, laps_csv).

(** ** Vocabulary of the table and extraction properties *)

(** The cells a row takes over from its record message. *)
Definition sample_of (rec : RecordMsg.t) :=
  (iso_dt (RecordMsg.timestamp rec), RecordMsg.power rec,
   RecordMsg.heart_rate rec, RecordMsg.cadence rec, RecordMsg.distance rec).

Definition row_sample (row : record_row) :=
  (row_timestamp row, row_power row, row_heart_rate row, row_cadence row,
   row_distance_m row).

(** Two keys Python can order: both integers or both datetimes. *)
Definition same_kind (a b : sort_key) : bool :=
  match a, b with
  | KeyInt _, KeyInt _ => true
  | KeyTime _, KeyTime _ => true
  | _, _ => false
  end.

(** [a] comes in front of [b] in a stable sort by start of laps numbered
    in extraction order: the earlier start, or the same start and the
    smaller [lap_index]. *)
Definition stably_before (a b : lap_dict) : bool :=
  match lap_start_time a, lap_start_time b with
  | Some x, Some y => (x <? y) || ((x =? y) && (lap_index a <? lap_index b))
  | None, None => lap_index a <? lap_index b
  | None, Some _ => true
  | Some _, None => false
  end.

(** ** Vocabulary of the stream and table properties *)

(** An interval with a start and no end. *)
Definition open_ended (iv : interval) : bool :=
  match iv_start iv, iv_end iv with
  | Some _, None => true
  | _, _ => false
  end.

(** No interval in front of the last one is open-ended. *)
Definition only_last_open (l : list interval) : bool :=
  forallb (fun iv => negb (open_ended iv)) (firstn (length l - 1) l).

(** The timestamps of the record messages, the absent ones aside, never go
    back, and none is in front of [lo]. *)
Fixpoint nondecreasing_from (lo : option instant) (recs : list RecordMsg.t)
  : bool :=
  match recs with
  | [] => true
  | rec :: recs' =>
      match RecordMsg.timestamp rec with
      | None => nondecreasing_from lo recs'
      | Some t =>
          match lo with
          | None => true
          | Some x => x <=? t
          end && nondecreasing_from (Some t) recs'
      end
  end.

Definition timestamps_nondecreasing (recs : list RecordMsg.t) : bool :=
  nondecreasing_from None recs.

(** The row of the lap table written for a lap. *)
Definition lap_row_of (lap : lap_dict) : lap_row :=
  {| lrow_lap_index := lap_index lap;
     lrow_lap_start_time := iso_dt (lap_start_time lap);
     lrow_lap_end_time := iso_dt (lap_end_time lap);
     lrow_lap_duration_s := lap_duration_s lap;
     lrow_lap_avg_power := lap_avg_power lap;
     lrow_lap_avg_heart_rate := lap_avg_heart_rate lap;
     lrow_lap_avg_cadence := lap_avg_cadence lap;
     lrow_lap_total_distance_m := lap_total_distance_m lap |}.

(** The lap messages all have a start time, or all lack it. *)
Definition uniform_starts (msgs : list LapMsg.t) : Prop :=
  (forall m, In m msgs -> LapMsg.start_time m <> None) \/
  (forall m, In m msgs -> LapMsg.start_time m = None).

(** * Properties *)

(** ** Sanity checks on concrete inputs *)

Example classify_inside :
  map_record_to_lap_index (Some 5)
    [(1, Some 0, Some 10); (2, Some 10, Some 20)] (-3) = (Some 1, 0).
Proof. reflexivity. Qed.

Example classify_past_the_end :
  map_record_to_lap_index (Some 25)
    [(1, Some 0, Some 10); (2, Some 10, Some 20)] 0 = (None, 2).
Proof. reflexivity. Qed.

Example classify_before_start :
  map_record_to_lap_index (Some 3)
    [(1, Some 5, Some 10); (2, Some 10, Some 20)] 7 = (None, 1).
Proof. reflexivity. Qed.

Example timedelta_600 :
  timedelta_seconds (float (inject_Z 600)) = 600000000.
Proof. reflexivity. Qed.

(** [timedelta(seconds=2.5e-06)] is 2 microseconds and
    [timedelta(seconds=3.5e-06)] is 4. *)
Example timedelta_half_even :
  timedelta_seconds (float (25 # 10000000)) = 2 /\
  timedelta_seconds (float (35 # 10000000)) = 4.
Proof. split; vm_compute; reflexivity. Qed.

(** [timedelta(microseconds=100000).total_seconds()] is the float [0.1]. *)
Example total_seconds_tenth :
  total_seconds 100000 = (3602879701896397 # 36028797018963968)%Q.
Proof. vm_compute. reflexivity. Qed.

(** One lap of 600 s from [T0 = 0] and samples at [T0], [T0 + 300 s] and
    [T0 + 900 s]: the lap lasts 600 s and the samples get laps 1, 1 and
    none. *)
Example one_lap_three_samples :
  match convert
          {| lap_messages :=
               [LapMsg.mk (Some 0) (Some (Num (inject_Z 600))) None None
                  None None None None];
             record_messages :=
               [RecordMsg.mk (Some 0) None None None None;
                RecordMsg.mk (Some 300000000) None None None None;
                RecordMsg.mk (Some 900000000) None None None None] |} with
  | Ok (records_csv, laps_csv) =>
      flat_map (fun line => match line with
                            | RowLine row => [row_lap_index row]
                            | HeaderLine _ => []
                            end) records_csv
      = [Some 1; Some 1; None] /\
      flat_map (fun line => match line with
                            | RowLine row => [lrow_lap_duration_s row]
                            | HeaderLine _ => []
                            end) laps_csv
      = [Some (inject_Z 600)]
  | Raise _ => False
  end.
Proof. split; reflexivity. Qed.

(** No lap at all: every sample is left without lap and the lap table is
    its header. *)
Example no_laps_three_samples :
  convert
    {| lap_messages := [];
       record_messages :=
         [RecordMsg.mk (Some 0) None None None None;
          RecordMsg.mk None None None None None] |}
  = Ok ([HeaderLine record_fields;
         RowLine {| row_timestamp := Some (isoformat 0);
                    row_power := None; row_heart_rate := None;
                    row_cadence := None; row_distance_m := None;
                    row_lap_index := None |};
         RowLine {| row_timestamp := None;
                    row_power := None; row_heart_rate := None;
                    row_cadence := None; row_distance_m := None;
                    row_lap_index := None |}],
        [HeaderLine lap_fields]).
Proof. reflexivity. Qed.

(** ** Floats *)

Section Doubles.
Local Open Scope Q_scope.

Lemma pow2_pos (k : Z) : 0 < 2 ^ k.
Proof. apply Qpower_0_lt. reflexivity. Qed.

Lemma pow2_plus (a b : Z) : 2 ^ (a + b) == 2 ^ a * 2 ^ b.
Proof. apply Qpower_plus. discriminate. Qed.

Lemma pow2_le (a b : Z) : (a <= b)%Z -> 2 ^ a <= 2 ^ b.
Proof. intros H. apply Qpower_le_compat_l; [exact H | discriminate]. Qed.

Lemma pow2_cancel (k : Z) : 2 ^ (- k) * 2 ^ k == 1.
Proof.
  rewrite <- pow2_plus. replace (- k + k)%Z with 0%Z by lia. reflexivity.
Qed.

Lemma pow2_inject (n : Z) : (0 <= n)%Z -> inject_Z (2 ^ n) == 2 ^ n.
Proof. intros H. apply (Zpower_Qpower 2 n H). Qed.

Lemma Qabs_bounds (b : Q) : b <= Qabs b /\ - b <= Qabs b.
Proof.
  split; [apply Qle_Qabs|]. rewrite <- Qabs_opp. apply Qle_Qabs.
Qed.

Lemma inject_Z_succ (f : Z) : inject_Z (f + 1) == inject_Z f + 1.
Proof. rewrite inject_Z_plus. reflexivity. Qed.

Lemma floor_bounds (y : Q) :
  inject_Z (Qfloor y) <= y /\ y < inject_Z (Qfloor y) + 1.
Proof.
  split; [apply Qfloor_le|].
  pose proof (Qlt_floor y) as H. rewrite inject_Z_succ in H. exact H.
Qed.

Lemma round_half_even_cases (y : Q) :
  let f := Qfloor y in
  (round_half_even y = f /\ y - inject_Z f <= 1 # 2) \/
  (round_half_even y = (f + 1)%Z /\ 1 # 2 <= y - inject_Z f).
Proof.
  intros f. unfold round_half_even. fold f.
  destruct (Qcompare_spec (y - inject_Z f) (1 # 2)) as [H|H|H].
  - destruct (Z.even f); [left | right]; split; try reflexivity;
      rewrite H; apply Qle_refl.
  - left. split; [reflexivity | apply Qlt_le_weak, H].
  - right. split; [reflexivity | apply Qlt_le_weak, H].
Qed.

Lemma round_half_even_nearest (y : Q) (j : Z) :
  Qabs (inject_Z (round_half_even y) - y) <= Qabs (inject_Z j - y).
Proof.
  destruct (floor_bounds y) as [Hlo Hhi].
  destruct (Qabs_bounds (inject_Z j - y)) as [Hb1 Hb2].
  assert (Hj : inject_Z j <= inject_Z (Qfloor y) \/
               inject_Z (Qfloor y) + 1 <= inject_Z j).
  { destruct (Z_le_gt_dec j (Qfloor y)) as [H|H].
    - left. rewrite <- Zle_Qle. exact H.
    - right. rewrite <- inject_Z_succ, <- Zle_Qle. lia. }
  destruct (round_half_even_cases y) as [[-> Hr]|[-> Hr]];
    [|rewrite inject_Z_succ]; apply Qabs_case; intros _;
    destruct Hj as [Hj|Hj]; lra.
Qed.

Lemma round_half_even_error (y : Q) :
  Qabs (inject_Z (round_half_even y) - y) <= 1 # 2.
Proof.
  destruct (floor_bounds y) as [Hlo Hhi].
  destruct (round_half_even_cases y) as [[-> Hr]|[-> Hr]];
    [|rewrite inject_Z_succ]; apply Qabs_case; intros _; lra.
Qed.

Lemma round_half_even_le (y : Q) (n : Z) :
  y <= inject_Z n -> (round_half_even y <= n)%Z.
Proof.
  intros H. pose proof (round_half_even_error y) as He.
  apply Qabs_Qle_condition in He. destruct He as [_ He].
  apply Z.lt_succ_r. rewrite Zlt_Qlt. unfold Z.succ.
  rewrite inject_Z_succ. lra.
Qed.

Lemma round_half_even_ge (y : Q) (n : Z) :
  inject_Z n <= y -> (n <= round_half_even y)%Z.
Proof.
  intros H. pose proof (round_half_even_error y) as He.
  apply Qabs_Qle_condition in He. destruct He as [He _].
  apply Z.lt_pred_le. rewrite Zlt_Qlt. unfold Z.pred.
  rewrite inject_Z_plus. change (inject_Z (-1)) with (- (1))%Q. lra.
Qed.

Lemma log2_bounds (n : Z) :
  (0 < n)%Z ->
  2 ^ Z.log2 n <= inject_Z n /\ inject_Z n < 2 * 2 ^ Z.log2 n.
Proof.
  intros Hn. destruct (Z.log2_spec n Hn) as [Hlo Hhi].
  pose proof (Z.log2_nonneg n) as H0.
  rewrite <- (pow2_inject (Z.log2 n) H0). split.
  - rewrite <- Zle_Qle. exact Hlo.
  - change 2 with (inject_Z 2) at 1. rewrite <- inject_Z_mult, <- Zlt_Qlt.
    rewrite Z.pow_succ_r in Hhi by exact H0. exact Hhi.
Qed.

Lemma ilog2_spec (y : Q) :
  0 < y -> 2 ^ ilog2 y <= y /\ y < 2 ^ (ilog2 y + 1).
Proof.
  intros Hy. unfold ilog2.
  assert (Hn : (0 < Qnum y)%Z).
  { unfold Qlt in Hy. simpl in Hy. lia. }
  destruct (log2_bounds (Qnum y) Hn) as [Hn1 Hn2].
  destruct (log2_bounds (Zpos (Qden y)) eq_refl) as [Hd1 Hd2].
  assert (Hyd : y * inject_Z (Zpos (Qden y)) == inject_Z (Qnum y)).
  { destruct y as [n d]. unfold Qeq. simpl. lia. }
  set (ln := Z.log2 (Qnum y)) in *. set (ld := Z.log2 (Zpos (Qden y))) in *.
  pose proof (pow2_pos ln) as Hpn. pose proof (pow2_pos ld) as Hpd.
  pose proof (pow2_pos (ln - ld)) as Hpe.
  assert (He : 2 ^ (ln - ld) * 2 ^ ld == 2 ^ ln).
  { rewrite <- pow2_plus. replace (ln - ld + ld)%Z with ln by lia.
    reflexivity. }
  destruct (Qle_bool (2 ^ (ln - ld)) y) eqn:Ht.
  - apply Qle_bool_iff in Ht. split; [exact Ht|].
    rewrite pow2_plus. change (2 ^ 1) with 2.
    generalize dependent (2 ^ (ln - ld)). generalize dependent (2 ^ ln).
    generalize dependent (2 ^ ld). generalize dependent (inject_Z (Qnum y)).
    generalize dependent (inject_Z (Zpos (Qden y))). intros. nra.
  - assert (Ht' : y < 2 ^ (ln - ld)).
    { apply Qnot_le_lt. intros H. apply Qle_bool_iff in H. congruence. }
    clear Ht. replace (ln - ld - 1 + 1)%Z with (ln - ld)%Z by lia.
    split; [|exact Ht'].
    assert (Hh : 2 ^ (ln - ld - 1) * 2 == 2 ^ (ln - ld)).
    { change 2 with (2 ^ 1) at 2. rewrite <- pow2_plus.
      replace (ln - ld - 1 + 1)%Z with (ln - ld)%Z by lia. reflexivity. }
    generalize dependent (2 ^ (ln - ld - 1)).
    generalize dependent (2 ^ (ln - ld)). generalize dependent (2 ^ ln).
    generalize dependent (2 ^ ld). generalize dependent (inject_Z (Qnum y)).
    generalize dependent (inject_Z (Zpos (Qden y))). intros. nra.
Qed.

Lemma Qabs_pos_lt (x : Q) : ~ x == 0 -> 0 < Qabs x.
Proof.
  intros Hx. destruct (Qlt_le_dec 0 (Qabs x)) as [H|H]; [exact H|].
  exfalso. apply Hx. pose proof (Qabs_nonneg x) as H0.
  destruct (Qabs_bounds x) as [H1 H2]. lra.
Qed.

Lemma nearest_double_eq (x : Q) :
  ~ x == 0 ->
  nearest_double x ==
  inject_Z (round_half_even (x * 2 ^ (- ulp_exponent x))) * 2 ^ ulp_exponent x.
Proof.
  intros Hx. unfold nearest_double.
  destruct (Qeq_bool x 0) eqn:E.
  - apply Qeq_bool_iff in E. contradiction.
  - apply Qred_correct.
Qed.

Lemma nearest_double_zero (x : Q) : x == 0 -> nearest_double x = 0.
Proof.
  intros Hx. unfold nearest_double. apply Qeq_bool_iff in Hx.
  rewrite Hx. reflexivity.
Qed.

Lemma scaled_abs (x : Q) (k : Z) : Qabs (x * 2 ^ k) == Qabs x * 2 ^ k.
Proof.
  rewrite Qabs_Qmult, (Qabs_pos (2 ^ k)); [reflexivity|].
  apply Qlt_le_weak, pow2_pos.
Qed.

(** The scaled value has at most 53 bits in front of the point, and
    exactly 53 above the subnormal range. *)
Lemma significand_bounds (x : Q) :
  ~ x == 0 ->
  let k := ulp_exponent x in
  Qabs (x * 2 ^ (- k)) < 2 ^ 53 /\
  ((-1074 < k)%Z -> 2 ^ 52 <= Qabs (x * 2 ^ (- k)) /\ 2 ^ (k + 52) <= Qabs x).
Proof.
  intros Hx k. pose proof (Qabs_pos_lt x Hx) as Ha.
  destruct (ilog2_spec (Qabs x) Ha) as [Hlo Hhi].
  rewrite scaled_abs.
  set (e := ilog2 (Qabs x)) in *.
  assert (Hk : (e - 52 <= k)%Z) by (unfold k, ulp_exponent; fold e; lia).
  pose proof (pow2_pos (- k)) as Hpk.
  split.
  - pose proof (pow2_le (- k) (52 - e) ltac:(lia)) as Hle.
    assert (Hp : 2 ^ (e + 1) * 2 ^ (52 - e) == 2 ^ 53).
    { rewrite <- pow2_plus. replace (e + 1 + (52 - e))%Z with 53%Z by lia.
      reflexivity. }
    generalize dependent (2 ^ 53). generalize dependent (2 ^ (e + 1)).
    generalize dependent (2 ^ (52 - e)). generalize dependent (2 ^ (- k)).
    generalize dependent (Qabs x). intros. nra.
  - intros Hn. assert (Hke : k = (e - 52)%Z).
    { unfold k, ulp_exponent in *. fold e in Hn |- *. lia. }
    assert (Hp : 2 ^ e * 2 ^ (- k) == 2 ^ 52).
    { rewrite <- pow2_plus. replace (e + - k)%Z with 52%Z by lia.
      reflexivity. }
    split.
    + pose proof (pow2_pos e).
      generalize dependent (2 ^ 52). generalize dependent (2 ^ e).
      generalize dependent (2 ^ (- k)). generalize dependent (Qabs x).
      intros. nra.
    + replace (k + 52)%Z with e by lia. exact Hlo.
Qed.

Lemma is_double_zero : is_double 0.
Proof. exists 0%Z, 0%Z. repeat split; try lia. Qed.

Lemma nearest_double_is_double (x : Q) : is_double (nearest_double x).
Proof.
  destruct (Qeq_dec x 0) as [Hx|Hx].
  - rewrite (nearest_double_zero x Hx). apply is_double_zero.
  - exists (round_half_even (x * 2 ^ (- ulp_exponent x))), (ulp_exponent x).
    split; [|split].
    + destruct (significand_bounds x Hx) as [Hb _].
      apply Qabs_Qlt_condition in Hb. destruct Hb as [Hb1 Hb2].
      rewrite <- (pow2_inject 53) in Hb1, Hb2 by lia.
      rewrite <- inject_Z_opp in Hb1.
      apply Z.abs_le. split.
      * apply round_half_even_ge, Qlt_le_weak, Hb1.
      * apply round_half_even_le, Qlt_le_weak, Hb2.
    + unfold ulp_exponent. lia.
    + apply nearest_double_eq, Hx.
Qed.

Lemma scaled_back (x : Q) (k : Z) : x == x * 2 ^ (- k) * 2 ^ k.
Proof. rewrite <- Qmult_assoc, pow2_cancel. ring. Qed.

Lemma scaled_diff (a b p : Q) :
  0 < p -> Qabs (a * p - b * p) == Qabs (a - b) * p.
Proof.
  intros Hp. setoid_replace (a * p - b * p) with ((a - b) * p) by ring.
  rewrite Qabs_Qmult, (Qabs_pos p); [reflexivity | apply Qlt_le_weak, Hp].
Qed.

(** A double with exponent at least [k] is a multiple of [2^k]. *)
Lemma coarser_multiple (m' k k' : Z) :
  (k <= k')%Z ->
  inject_Z m' * 2 ^ k' == inject_Z (m' * 2 ^ (k' - k)) * 2 ^ k.
Proof.
  intros H. rewrite inject_Z_mult, pow2_inject by lia.
  rewrite <- Qmult_assoc, <- pow2_plus.
  replace (k' - k + k)%Z with k' by lia. reflexivity.
Qed.

Lemma finer_is_smaller (m' k k' : Z) :
  (Z.abs m' <= 2 ^ 53)%Z -> (k' < k)%Z ->
  Qabs (inject_Z m' * 2 ^ k') <= 2 ^ (k + 52).
Proof.
  intros Hm Hk. rewrite scaled_abs.
  apply Qle_trans with (2 ^ 53 * 2 ^ k').
  - apply Qmult_le_compat_r; [|apply Qlt_le_weak, pow2_pos].
    rewrite <- (pow2_inject 53) by lia.
    apply Qabs_Qle_condition. rewrite <- inject_Z_opp, <- !Zle_Qle. lia.
  - rewrite <- pow2_plus. apply pow2_le. lia.
Qed.

Lemma nearest_double_nearest (x q' : Q) :
  is_double q' -> Qabs (nearest_double x - x) <= Qabs (q' - x).
Proof.
  intros (m' & k' & Hm' & Hk' & Hq').
  destruct (Qeq_dec x 0) as [Hx|Hx].
  { rewrite (nearest_double_zero x Hx), Hx. apply Qabs_nonneg. }
  rewrite (nearest_double_eq x Hx), Hq'.
  set (k := ulp_exponent x). set (y := x * 2 ^ (- k)).
  pose proof (pow2_pos k) as Hp.
  destruct (Z_le_gt_dec k k') as [Hkk|Hkk].
  - rewrite (coarser_multiple m' k k' Hkk).
    rewrite (scaled_back x k) at 1 2. fold y.
    rewrite !scaled_diff by exact Hp.
    apply Qmult_le_compat_r; [|apply Qlt_le_weak, Hp].
    apply round_half_even_nearest.
  - destruct (significand_bounds x Hx) as [_ Hb]. fold k y in Hb.
    destruct (Hb ltac:(lia)) as [Hy52 Hx52]. clear Hb.
    pose proof (finer_is_smaller m' k k' Hm' ltac:(lia)) as Hq.
    apply Qle_trans with (Qabs x - 2 ^ (k + 52)).
    + assert (Hxy : x == y * 2 ^ k) by apply scaled_back.
      assert (Ht : 2 ^ (k + 52) == 2 ^ 52 * 2 ^ k).
      { rewrite Z.add_comm. apply pow2_plus. }
      rewrite Ht. rewrite Hxy at 1 2.
      rewrite scaled_diff, scaled_abs by exact Hp.
      setoid_replace (Qabs y * 2 ^ k - 2 ^ 52 * 2 ^ k)
        with ((Qabs y - 2 ^ 52) * 2 ^ k) by ring.
      apply Qmult_le_compat_r; [|apply Qlt_le_weak, Hp].
      rewrite <- (pow2_inject 52) in Hy52 |- * by lia.
      revert Hy52. apply Qabs_case; intros Hs Hy52.
      * pose proof (round_half_even_nearest y (2 ^ 52)) as Hn.
        rewrite (Qabs_Qminus (inject_Z (2 ^ 52)) y) in Hn.
        rewrite (Qabs_pos (y - inject_Z (2 ^ 52))) in Hn by lra.
        exact Hn.
      * pose proof (round_half_even_nearest y (- 2 ^ 52)) as Hn.
        rewrite inject_Z_opp in Hn.
        rewrite (Qabs_pos (- inject_Z (2 ^ 52) - y)) in Hn by lra.
        lra.
    + pose proof (Qabs_triangle_reverse x (inject_Z m' * 2 ^ k')) as Ht.
      rewrite Qabs_Qminus in Ht. lra.
Qed.

(** A rational that is a double is its own nearest double. *)
Lemma nearest_double_exact (x : Q) : is_double x -> nearest_double x == x.
Proof.
  intros H. pose proof (nearest_double_nearest x x H) as Hn.
  setoid_replace (x - x) with 0 in Hn by ring.
  change (Qabs 0) with 0 in Hn.
  apply Qabs_Qle_condition in Hn. lra.
Qed.

Lemma nearest_double_nonneg (x : Q) : 0 <= x -> 0 <= nearest_double x.
Proof.
  intros H. destruct (Qeq_dec x 0) as [Hx|Hx].
  - rewrite (nearest_double_zero x Hx). apply Qle_refl.
  - rewrite (nearest_double_eq x Hx).
    apply Qmult_le_0_compat; [|apply Qlt_le_weak, pow2_pos].
    change 0 with (inject_Z 0). rewrite <- Zle_Qle.
    apply round_half_even_ge. change (inject_Z 0) with 0.
    apply Qmult_le_0_compat; [exact H | apply Qlt_le_weak, pow2_pos].
Qed.

Lemma nearest_double_half_ulp (x : Q) :
  ~ x == 0 ->
  Qabs (nearest_double x - x) <= (1 # 2) * 2 ^ ulp_exponent x.
Proof.
  intros Hx. rewrite (nearest_double_eq x Hx).
  set (k := ulp_exponent x). pose proof (pow2_pos k) as Hp.
  rewrite (scaled_back x k) at 2.
  rewrite scaled_diff by exact Hp.
  apply Qmult_le_compat_r; [|apply Qlt_le_weak, Hp].
  apply round_half_even_error.
Qed.

(** Below a million a double is within [2^-34] of the number it rounds. *)
Lemma nearest_double_below_million (z : Q) :
  0 <= z -> z < 1000000 -> Qabs (nearest_double z - z) <= 2 ^ (-34).
Proof.
  intros H0 H1. destruct (Qeq_dec z 0) as [Hz|Hz].
  { rewrite (nearest_double_zero z Hz), Hz. discriminate. }
  eapply Qle_trans; [apply (nearest_double_half_ulp z Hz)|].
  assert (Ha : 0 < Qabs z) by (apply Qabs_pos_lt, Hz).
  destruct (ilog2_spec (Qabs z) Ha) as [Hlo _].
  assert (He : (ilog2 (Qabs z) < 20)%Z).
  { apply (Qpower_lt_compat_l_inv 2); [|reflexivity].
    eapply Qle_lt_trans; [exact Hlo|]. rewrite Qabs_pos by exact H0.
    eapply Qlt_trans; [exact H1|]. reflexivity. }
  assert (Hk : (ulp_exponent z <= -33)%Z) by (unfold ulp_exponent; lia).
  change (1 # 2) with (2 ^ (-1)). rewrite <- pow2_plus.
  apply pow2_le. lia.
Qed.

Lemma timedelta_seconds_spec (x : Q) :
  0 <= x ->
  (0 <= timedelta_seconds x)%Z /\
  Qabs (inject_Z (timedelta_seconds x) - x * 1000000) <= (1 # 2) + 2 ^ (-34).
Proof.
  intros Hx. unfold timedelta_seconds.
  assert (Hq : Z.quot (Qnum x) (Zpos (Qden x)) = Qfloor x).
  { destruct x as [n d]. cbn. apply Z.quot_div_nonneg; [|lia].
    unfold Qle in Hx. cbn in Hx. lia. }
  rewrite Hq. destruct (floor_bounds x) as [Hlo Hhi].
  set (f := Qfloor x) in *.
  set (z := (x - inject_Z f) * inject_Z 1000000).
  assert (Hz0 : 0 <= z) by (unfold z; change (inject_Z 1000000) with 1000000; lra).
  assert (Hz1 : z < 1000000) by (unfold z; change (inject_Z 1000000) with 1000000; lra).
  assert (Hf : (0 <= f)%Z) by (apply (Qfloor_resp_le 0 x Hx)).
  pose proof (nearest_double_nonneg z Hz0) as Hu0.
  pose proof (nearest_double_below_million z Hz0 Hz1) as Hu.
  set (u := nearest_double z) in *.
  pose proof (round_half_even_ge u 0 Hu0) as Hr0.
  pose proof (round_half_even_error u) as Hr.
  split; [lia|].
  rewrite inject_Z_plus, inject_Z_mult.
  setoid_replace (inject_Z f * inject_Z 1000000 + inject_Z (round_half_even u)
                  - x * 1000000)
    with ((inject_Z (round_half_even u) - u) + (u - z))
    by (unfold z; change (inject_Z 1000000) with 1000000; ring).
  eapply Qle_trans; [apply Qabs_triangle|]. lra.
Qed.

End Doubles.

(** ** The scan loop *)

(** One turn of the loop, as the source writes it. *)
Lemma scan_eq ts l i :
  scan ts l i =
  match nth_error l i with
  | None => (None, i)
  | Some (lap_id, Some start, Some end_) =>
      if (start <=? ts) && (ts <=? end_) then (Some lap_id, i)
      else if end_ <? ts then scan ts l (i + 1)
      else (None, i)
  | Some (lap_id, Some start, None) =>
      if start <=? ts then (Some lap_id, i) else scan ts l (i + 1)
  | Some (lap_id, None, _) => scan ts l (i + 1)
  end.
Proof.
  rewrite scan_equation_1. unfold inspect.
  generalize (@eq_refl _ (nth_error l i)).
  generalize (nth_error l i) at 2 4 5.
  intros o e. destruct o as [[[id [s|]] [e'|]]|]; simp scan; reflexivity.
Qed.

(** Induction from the end of the sequence down to a position. *)
Lemma from_end_ind (n : nat) (P : nat -> Prop) :
  (forall i, (n <= i)%nat -> P i) ->
  (forall i, (i < n)%nat -> P (i + 1)%nat -> P i) ->
  forall i, P i.
Proof.
  intros Hout Hstep i.
  remember (n - i)%nat as d eqn:Hd. revert i Hd.
  induction d as [|d IH]; intros i Hd.
  - apply Hout. lia.
  - apply Hstep; [lia|]. apply IH. lia.
Qed.

Lemma scan_exit ts l i : (length l <= i)%nat -> scan ts l i = (None, i).
Proof.
  intros H. rewrite scan_eq.
  apply nth_error_None in H. rewrite H. reflexivity.
Qed.

Lemma scan_hit ts (l : list interval) i iv :
  nth_error l i = Some iv -> covers iv ts = true ->
  scan ts l i = (Some (iv_id iv), i).
Proof.
  intros Hi Hc. rewrite scan_eq, Hi.
  destruct iv as [[id [s|]] [e|]]; unfold covers in Hc; cbn in Hc.
  - rewrite Hc. reflexivity.
  - rewrite Hc. reflexivity.
  - discriminate.
  - discriminate.
Qed.

Lemma scan_advance ts (l : list interval) i iv :
  nth_error l i = Some iv -> passed iv ts = true ->
  scan ts l i = scan ts l (i + 1).
Proof.
  intros Hi Hp. rewrite scan_eq at 1. rewrite Hi.
  destruct iv as [[id [s|]] [e|]]; unfold passed in Hp; cbn in Hp.
  - rewrite Hp.
    destruct (Z.leb_spec s ts), (Z.leb_spec ts e); cbn; try reflexivity.
    apply Z.ltb_lt in Hp. lia.
  - destruct (Z.leb_spec s ts); [apply Z.ltb_lt in Hp; lia | reflexivity].
  - reflexivity.
  - reflexivity.
Qed.

Lemma scan_stop ts (l : list interval) i id s e :
  nth_error l i = Some (id, Some s, Some e) -> ts < s -> ts <= e ->
  scan ts l i = (None, i).
Proof.
  intros Hi Hs He. rewrite scan_eq, Hi.
  destruct (Z.leb_spec s ts); [lia|]. cbn.
  destruct (Z.ltb_spec e ts); [lia|]. reflexivity.
Qed.

(** The loop runs over a stretch of intervals it moves on from. *)
Lemma scan_run ts (l : list interval) k :
  forall i, (i <= k)%nat ->
  (forall j iv, (i <= j < k)%nat -> nth_error l j = Some iv ->
                passed iv ts = true) ->
  (k <= length l)%nat ->
  scan ts l i = scan ts l k.
Proof.
  intros i Hik. remember (k - i)%nat as d eqn:Hd. revert i Hik Hd.
  induction d as [|d IH]; intros i Hik Hd Hp Hk.
  - replace i with k by lia. reflexivity.
  - destruct (nth_error l i) as [iv|] eqn:Hi.
    + rewrite (scan_advance ts l i iv Hi) by (apply (Hp i); [lia|exact Hi]).
      apply IH; [lia|lia| |exact Hk].
      intros j iv' Hj. apply Hp. lia.
    + apply nth_error_None in Hi. lia.
Qed.

(** The position only moves forward, and no further than the length. *)
Lemma scan_bounds ts l :
  forall i, (i <= snd (scan ts l i))%nat /\
            (snd (scan ts l i) <= Nat.max i (length l))%nat.
Proof.
  apply (from_end_ind (length l)).
  - intros i Hi. rewrite scan_exit by exact Hi. cbn. lia.
  - intros i Hi [IH1 IH2]. rewrite scan_eq.
    destruct (nth_error l i) as [[[id [s|]] [e|]]|]; cbn.
    + destruct ((s <=? ts) && (ts <=? e)); cbn; [lia|].
      destruct (e <? ts); cbn; lia.
    + destruct (s <=? ts); cbn; lia.
    + lia.
    + lia.
    + lia.
Qed.

(** ** The clamp *)

Lemma clamp_spec c n :
  (0 < n)%nat ->
  Z.of_nat (clamp c n) = Z.max 0 (Z.min c (Z.of_nat n - 1)) /\
  (clamp c n < n)%nat.
Proof. intros Hn. unfold clamp. lia. Qed.

Lemma clamp_le c n k : (k < n)%nat -> c <= Z.of_nat k -> (clamp c n <= k)%nat.
Proof. intros Hk Hc. unfold clamp. lia. Qed.


Lemma classify_scan t l c :
  l <> [] ->
  map_record_to_lap_index (Some t) l c =
  (fst (scan t l (clamp c (length l))),
   Z.of_nat (snd (scan t l (clamp c (length l))))).
Proof.
  intros Hl. unfold map_record_to_lap_index.
  destruct l as [|iv l']; [contradiction|].
  destruct (scan t (iv :: l') (clamp c (length (iv :: l')))). reflexivity.
Qed.



(** ** Pairwise relations *)

Lemma pairwise_nth {A} (r : A -> A -> bool) l :
  pairwise r l = true ->
  forall i j a b, (i < j)%nat ->
  nth_error l i = Some a -> nth_error l j = Some b -> r a b = true.
Proof.
  induction l as [|x l IH]; intros Hp i j a b Hij Hi Hj.
  - destruct i; discriminate.
  - cbn in Hp. apply andb_true_iff in Hp as [Hx Hl].
    destruct j as [|j]; [lia|]. cbn in Hj.
    destruct i as [|i].
    + cbn in Hi. injection Hi as ->.
      rewrite forallb_forall in Hx. apply Hx.
      eapply nth_error_In. exact Hj.
    + cbn in Hi. apply (IH Hl i j); [lia|exact Hi|exact Hj].
Qed.

(** [overlaps] is what its name says. *)
Lemma overlaps_spec a b :
  overlaps a b = true <-> exists t, covers a t = true /\ covers b t = true.
Proof.
  destruct a as [[ia [sa|]] ea], b as [[ib [sb|]] eb];
    unfold overlaps, covers, before_end; cbn.
  - split.
    + intros H. exists (Z.max sa sb).
      apply andb_true_iff in H as [H1 H2].
      destruct ea, eb; rewrite ?andb_true_iff, ?Z.leb_le in *; lia.
    + intros [t [H1 H2]].
      destruct ea, eb; rewrite ?andb_true_iff, ?Z.leb_le in *; lia.
  - split; [discriminate|]. intros [t [_ H]]. discriminate.
  - split; [discriminate|]. intros [t [H _]]. discriminate.
  - split; [discriminate|]. intros [t [H _]]. discriminate.
Qed.

Lemma nth_error_length {A} (l : list A) i a :
  nth_error l i = Some a -> (i < length l)%nat.
Proof. intros H. apply nth_error_Some. rewrite H. discriminate. Qed.

Lemma nth_error_nonempty {A} (l : list A) i a :
  nth_error l i = Some a -> l <> [].
Proof. intros H ->. destruct i; discriminate. Qed.

(** An interval that starts no later than [t] and does not contain [t]
    is one the loop moves on from. *)
Lemma not_covered_passed iv s t :
  covers iv t = false -> start_le (iv_start iv) (Some s) = true -> s <= t ->
  passed iv t = true.
Proof.
  destruct iv as [[id [s'|]] [e'|]]; unfold covers, passed; cbn;
    intros Hc Hs Ht; try reflexivity.
  - apply Z.leb_le in Hs. apply Z.ltb_lt.
    apply andb_false_iff in Hc as [Hc|Hc]; apply Z.leb_gt in Hc; lia.
  - apply Z.leb_le in Hs. apply Z.leb_gt in Hc. lia.
Qed.

(** ** Classification *)



(** C1: in a sequence of intervals sorted by start and pairwise
    non-overlapping, a timestamp within the bounds of interval [k]
    (both included) is classified to the lap of interval [k], and the
    returned cursor is [k], from every starting cursor at most [k]. *)
Theorem classify_inside_interval (l : list interval) (k : nat)
    (id s e t c : Z) :
  sorted_by_start l = true ->
  non_overlapping l = true ->
  nth_error l k = Some (id, Some s, Some e) ->
  s <= t <= e ->
  c <= Z.of_nat k ->
  map_record_to_lap_index (Some t) l c = (Some id, Z.of_nat k).
Proof.
  intros Hsort Hdisj Hk Ht Hc.
  pose proof (nth_error_length _ _ _ Hk) as Hlen.
  rewrite classify_scan by (eapply nth_error_nonempty; exact Hk).
  assert (Hcov : covers (id, Some s, Some e) t = true).
  { unfold covers. cbn. apply andb_true_iff.
    split; apply Z.leb_le; lia. }
  rewrite (scan_run t l k (clamp c (length l))).
  - rewrite (scan_hit t l k _ Hk Hcov). reflexivity.
  - apply clamp_le; assumption.
  - intros j iv Hj Hiv.
    apply (not_covered_passed iv s t); [| |lia].
    + destruct (covers iv t) eqn:Hcj; [|reflexivity].
      pose proof (pairwise_nth _ l Hdisj j k iv _ (proj2 Hj) Hiv Hk) as Ho.
      apply negb_true_iff in Ho.
      assert (overlaps iv (id, Some s, Some e) = true) as Ho'
        by (apply overlaps_spec; exists t; split; assumption).
      congruence.
    + exact (pairwise_nth _ l Hsort j k iv _ (proj2 Hj) Hiv Hk).
  - lia.
Qed.

Lemma classify_inside_interval_witness :
  map_record_to_lap_index (Some 15)
    [(7, None, Some 3); (1, Some 0, Some 9); (2, Some 10, Some 20);
     (3, Some 21, None)] (-4)
  = (Some 2, 2).
Proof.
  apply (classify_inside_interval
           [(7, None, Some 3); (1, Some 0, Some 9); (2, Some 10, Some 20);
            (3, Some 21, None)] 2 2 10 20 15 (-4)).
  - reflexivity.
  - reflexivity.
  - reflexivity.
  - lia.
  - lia.
Defined.



(** C5, as the claim states it, does not hold: the interval that ends at
    [t] is skipped when it has no start, and an interval in front of it
    that contains [t] is the one returned. *)
Lemma boundary_tie_counterexample :
  ~ (forall (l : list interval) (k : nat) (t c id : Z)
            (s : option instant) (next : interval),
        sorted_by_start l = true ->
        nth_error l k = Some (id, s, Some t) ->
        nth_error l (S k) = Some next -> iv_start next = Some t ->
        c <= Z.of_nat k ->
        fst (map_record_to_lap_index (Some t) l c) = Some id) /\
  ~ (forall (l : list interval) (k : nat) (t c id s : Z) (next : interval),
        sorted_by_start l = true ->
        nth_error l k = Some (id, Some s, Some t) ->
        nth_error l (S k) = Some next -> iv_start next = Some t ->
        c <= Z.of_nat k ->
        fst (map_record_to_lap_index (Some t) l c) = Some id).
Proof.
  split.
  - intros H.
    specialize (H [(1, None, Some 10); (2, Some 10, Some 20)] 0%nat 10 0 1
                  None (2, Some 10, Some 20)
                  eq_refl eq_refl eq_refl eq_refl).
    cbn in H. specialize (H ltac:(lia)). discriminate H.
  - intros H.
    specialize (H [(1, Some 0, Some 100); (2, Some 5, Some 10);
                   (3, Some 10, Some 20)] 1%nat 10 0 2 5
                  (3, Some 10, Some 20)
                  eq_refl eq_refl eq_refl eq_refl).
    cbn in H. specialize (H ltac:(lia)). discriminate H.
Qed.

(** C5, amended: in a sequence sorted by start, let interval [k] have a
    start and end at [t], let interval [k + 1] start at [t], and let no
    interval in front of [k] contain [t].  Then from every cursor at most
    [k] the timestamp [t] is classified to the lap of interval [k], at
    position [k], not to the one that starts at [t]. *)
Theorem boundary_tie_earlier_wins (l : list interval) (k : nat)
    (t c id s : Z) (next : interval) :
  sorted_by_start l = true ->
  nth_error l k = Some (id, Some s, Some t) ->
  nth_error l (S k) = Some next -> iv_start next = Some t ->
  forallb (fun iv => negb (covers iv t)) (firstn k l) = true ->
  c <= Z.of_nat k ->
  map_record_to_lap_index (Some t) l c = (Some id, Z.of_nat k).
Proof.
  intros Hsort Hk Hnext Hstart Hfree Hc.
  pose proof (nth_error_length _ _ _ Hk) as Hlen.
  assert (Hst : s <= t).
  { pose proof (pairwise_nth _ l Hsort k (S k) _ _ (Nat.lt_succ_diag_r k)
                  Hk Hnext) as Hle.
    cbn in Hle. rewrite Hstart in Hle. apply Z.leb_le. exact Hle. }
  rewrite classify_scan by (eapply nth_error_nonempty; exact Hk).
  assert (Hcov : covers (id, Some s, Some t) t = true).
  { unfold covers. cbn. apply andb_true_iff.
    split; apply Z.leb_le; lia. }
  rewrite (scan_run t l k (clamp c (length l))).
  - rewrite (scan_hit t l k _ Hk Hcov). reflexivity.
  - apply clamp_le; assumption.
  - intros j iv Hj Hiv.
    apply (not_covered_passed iv s t); [| |exact Hst].
    + rewrite forallb_forall in Hfree.
      apply negb_true_iff. apply Hfree.
      apply (nth_error_In _ j). rewrite nth_error_firstn.
      destruct (Nat.ltb_spec j k); [exact Hiv|lia].
    + exact (pairwise_nth _ l Hsort j k iv _ (proj2 Hj) Hiv Hk).
  - lia.
Qed.

Lemma boundary_tie_earlier_wins_witness :
  map_record_to_lap_index (Some 10)
    [(1, Some 0, Some 4); (2, Some 5, Some 10); (3, Some 10, Some 20)] 0
  = (Some 2, 1).
Proof.
  apply (boundary_tie_earlier_wins
           [(1, Some 0, Some 4); (2, Some 5, Some 10); (3, Some 10, Some 20)]
           1 10 0 2 5 (3, Some 10, Some 20)).
  - reflexivity.
  - reflexivity.
  - reflexivity.
  - reflexivity.
  - reflexivity.
  - lia.
Defined.

(** A timestamp in front of every start finds no lap. *)
Lemma scan_before_all t (l : list interval) :
  (forall j iv, nth_error l j = Some iv ->
                exists s, iv_start iv = Some s /\ t < s) ->
  forall i, fst (scan t l i) = None.
Proof.
  intros Hall. apply (from_end_ind (length l)).
  - intros i Hi. rewrite scan_exit by exact Hi. reflexivity.
  - intros i Hi IH. rewrite scan_eq.
    destruct (nth_error l i) as [[[id s] e]|] eqn:Hnth; [|reflexivity].
    destruct (Hall i _ Hnth) as [s' [Hs Hlt]]. cbn in Hs. subst s.
    destruct e as [e|].
    + destruct (Z.leb_spec s' t); [lia|]. cbn.
      destruct (e <? t); [exact IH|reflexivity].
    + destruct (Z.leb_spec s' t); [lia|]. exact IH.
Qed.

(** A timestamp behind the end of every interval from [i] on runs the
    loop off the end of the sequence. *)
Lemma scan_after_all t (l : list interval) i :
  (i <= length l)%nat ->
  forallb (ends_before t) (skipn i l) = true ->
  scan t l i = (None, length l).
Proof.
  intros Hi Hall.
  rewrite (scan_run t l (length l) i Hi).
  - apply scan_exit. lia.
  - intros j iv Hj Hiv. rewrite forallb_forall in Hall.
    assert (Hin : In iv (skipn i l)).
    { apply (nth_error_In _ (j - i)). rewrite nth_error_skipn.
      replace (i + (j - i))%nat with j by lia. exact Hiv. }
    specialize (Hall iv Hin). unfold ends_before in Hall. unfold passed.
    destruct (iv_start iv); [|reflexivity].
    destruct (iv_end iv); [exact Hall|discriminate].
  - lia.
Qed.

(** C6, as the claim states it, does not hold: in a sequence that is not
    sorted a later interval can contain a timestamp in front of the first
    start, and, sorted or not, an interval in front of the last one that
    is still open or ends later takes a timestamp behind the last end. *)
Lemma outside_all_intervals_counterexample :
  ~ (forall (l rest : list interval) (id s0 t c : Z) (e0 : option instant),
        l = (id, Some s0, e0) :: rest -> t < s0 ->
        fst (map_record_to_lap_index (Some t) l c) = None) /\
  ~ (forall (l : list interval) (last : interval) (e t c : Z),
        sorted_by_start l = true ->
        nth_error l (length l - 1) = Some last -> iv_end last = Some e ->
        e < t ->
        fst (map_record_to_lap_index (Some t) l c) = None).
Proof.
  split.
  - intros H.
    specialize (H [(1, Some 10, None); (2, Some 0, Some 5)]
                  [(2, Some 0, Some 5)] 1 10 3 0 None eq_refl).
    cbn in H. specialize (H ltac:(lia)). discriminate H.
  - intros H.
    specialize (H [(1, Some 0, None); (2, Some 5, Some 10)]
                  (2, Some 5, Some 10) 10 20 0 eq_refl eq_refl eq_refl).
    cbn in H. specialize (H ltac:(lia)). discriminate H.
Qed.

(** C6, amended: in a nonempty sequence sorted by start whose first
    interval has a start, a timestamp strictly in front of that start finds
    no lap, from every cursor.  A timestamp strictly behind the end of
    every interval from the clamped cursor on, each of them having an end,
    finds no lap and the returned cursor is the length; this is so in
    particular when the cursor is at or behind the last position and that
    interval has an end in front of the timestamp. *)
Theorem outside_all_intervals :
  (forall (l rest : list interval) (first : interval) (s0 t c : Z),
      l = first :: rest -> iv_start first = Some s0 ->
      sorted_by_start l = true -> t < s0 ->
      fst (map_record_to_lap_index (Some t) l c) = None) /\
  (forall (l : list interval) (t c : Z),
      l <> [] ->
      forallb (ends_before t) (skipn (clamp c (length l)) l) = true ->
      map_record_to_lap_index (Some t) l c = (None, Z.of_nat (length l))) /\
  (forall (l : list interval) (last : interval) (e t c : Z),
      nth_error l (length l - 1) = Some last -> iv_end last = Some e ->
      e < t -> Z.of_nat (length l) - 1 <= c ->
      map_record_to_lap_index (Some t) l c = (None, Z.of_nat (length l))).
Proof.
  assert (Hafter : forall (l : list interval) (t c : Z),
             l <> [] ->
             forallb (ends_before t) (skipn (clamp c (length l)) l) = true ->
             map_record_to_lap_index (Some t) l c
             = (None, Z.of_nat (length l))).
  { intros l t c Hl Hall. rewrite classify_scan by exact Hl.
    assert (Hn : (0 < length l)%nat)
      by (destruct l; [contradiction|cbn; lia]).
    destruct (clamp_spec c (length l) Hn) as [_ Hlt].
    rewrite scan_after_all; [reflexivity|lia|exact Hall]. }
  split; [|split].
  - intros l rest first s0 t c -> Hs Hsort Ht.
    rewrite classify_scan by discriminate. cbn [fst].
    apply scan_before_all. intros j iv Hj.
    destruct j as [|j].
    + cbn in Hj. injection Hj as <-. exists s0. split; [exact Hs|exact Ht].
    + pose proof (pairwise_nth _ _ Hsort 0%nat (S j) first iv
                    (Nat.lt_0_succ j) eq_refl Hj) as Hle.
      cbn beta in Hle. rewrite Hs in Hle.
      destruct (iv_start iv) as [s|]; [|discriminate].
      exists s. split; [reflexivity|].
      cbn in Hle. apply Z.leb_le in Hle. lia.
  - exact Hafter.
  - intros l last e t c Hlast He Hlt Hc.
    pose proof (nth_error_length _ _ _ Hlast) as Hlen.
    apply Hafter; [eapply nth_error_nonempty; exact Hlast|].
    assert (Hcl : clamp c (length l) = (length l - 1)%nat)
      by (unfold clamp; lia).
    rewrite Hcl. apply forallb_forall. intros iv Hin.
    apply In_nth_error in Hin as [j Hj].
    rewrite nth_error_skipn in Hj.
    pose proof (nth_error_length _ _ _ Hj) as Hjl.
    replace (length l - 1 + j)%nat with (length l - 1)%nat in Hj by lia.
    rewrite Hlast in Hj. injection Hj as <-.
    unfold ends_before. rewrite He. apply Z.ltb_lt. exact Hlt.
Qed.

Lemma outside_all_intervals_witness :
  fst (map_record_to_lap_index (Some 3)
         [(1, Some 5, Some 9); (2, Some 10, None)] 0) = None /\
  map_record_to_lap_index (Some 30)
    [(1, Some 5, None); (2, Some 10, Some 20); (3, None, Some 25)] 1
  = (None, 3) /\
  map_record_to_lap_index (Some 30)
    [(1, Some 5, None); (2, Some 10, Some 20)] 1 = (None, 2).
Proof.
  split; [|split].
  - apply (proj1 outside_all_intervals
             [(1, Some 5, Some 9); (2, Some 10, None)] [(2, Some 10, None)]
             (1, Some 5, Some 9) 5 3 0); [reflexivity..|lia].
  - apply (proj1 (proj2 outside_all_intervals)
             [(1, Some 5, None); (2, Some 10, Some 20); (3, None, Some 25)]
             30 1); [discriminate|reflexivity].
  - apply (proj2 (proj2 outside_all_intervals)
             [(1, Some 5, None); (2, Some 10, Some 20)]
             (2, Some 10, Some 20) 20 30 1); [reflexivity|reflexivity|lia|].
    cbn. lia.
Defined.




(** ** The per-sample table *)

Lemma write_record_rows lap_intervals (recs : list RecordMsg.t) :
  forall f ptr,
  exists rows,
    fst (fold_left (write_record lap_intervals) recs (f, ptr))
    = f ++ map RowLine rows /\
    map row_sample rows = map sample_of recs.
Proof.
  induction recs as [|rec recs IH]; intros f ptr.
  - exists []. cbn. rewrite app_nil_r. split; reflexivity.
  - cbn [fold_left]. unfold write_record at 2.
    destruct (map_record_to_lap_index
                (safe_val rec RecordMsg.timestamp None) lap_intervals ptr)
      as [lap_idx ptr'].
    match goal with
    | |- context [fold_left _ recs (writerow ?row f, ptr')] =>
        destruct (IH (writerow row f) ptr') as [rows [Hf Hrows]];
        exists (row :: rows)
    end.
    split.
    + rewrite Hf. unfold writerow. rewrite <- app_assoc. reflexivity.
    + cbn [map]. rewrite Hrows. f_equal.
      unfold row_sample, sample_of, safe_val. cbn.
      destruct (RecordMsg.timestamp rec), (RecordMsg.power rec),
        (RecordMsg.heart_rate rec), (RecordMsg.cadence rec),
        (RecordMsg.distance rec); reflexivity.
Qed.

(** C8: the per-sample table is one header line followed by exactly one
    row per record message, in the order of the messages, each row
    carrying the cells of its own message; this holds for every record
    stream and every interval sequence. *)
Theorem records_table_one_row_per_record (fitfile : FitFile)
    (lap_intervals : list interval) :
  exists rows,
    write_records_csv fitfile lap_intervals
    = HeaderLine record_fields :: map RowLine rows /\
    length rows = length (record_messages fitfile) /\
    map row_sample rows = map sample_of (record_messages fitfile).
Proof.
  unfold write_records_csv, writeheader.
  destruct (write_record_rows lap_intervals (record_messages fitfile)
              ([] ++ [HeaderLine record_fields]) 0) as [rows [Hf Hrows]].
  exists rows. split; [exact Hf|]. split; [|exact Hrows].
  rewrite <- (length_map row_sample), Hrows. apply length_map.
Qed.

(** ** Lap extraction *)

(** The laps built by the loop are the messages, numbered from [k + 1]. *)
Lemma build_laps_nth (msgs : list LapMsg.t) :
  forall k d, In d (build_laps k msgs) ->
  exists i m, nth_error msgs i = Some m /\ d = build_lap (k + i) m.
Proof.
  induction msgs as [|m msgs IH]; intros k d Hin.
  - contradiction.
  - cbn in Hin. destruct Hin as [<- | Hin].
    + exists 0%nat, m. split; [reflexivity|].
      rewrite Nat.add_0_r. reflexivity.
    + destruct (IH (S k) d Hin) as [i [m' [Hi Hd]]].
      exists (S i), m'. split; [exact Hi|].
      rewrite Hd. f_equal. lia.
Qed.

Lemma build_laps_length (msgs : list LapMsg.t) k :
  length (build_laps k msgs) = length msgs.
Proof.
  revert k. induction msgs as [|m msgs IH]; intros k; cbn;
    [reflexivity | rewrite IH; reflexivity].
Qed.

(** Sorting only reorders. *)
Lemma insert_by_perm {A} (key : A -> sort_key) x :
  forall s r, insert_by key x s = Ok r -> Permutation (x :: s) r.
Proof.
  induction s as [|y s IH]; intros r Hr; cbn in Hr.
  - injection Hr as <-. apply Permutation_refl.
  - destruct (key_lt (key y) (key x)) as [[|]|]; cbn in Hr;
      [|injection Hr as <-; apply Permutation_refl|discriminate].
    destruct (insert_by key x s) as [r'|]; cbn in Hr; [|discriminate].
    injection Hr as <-.
    eapply Permutation_trans; [apply perm_swap|].
    apply perm_skip. apply IH. reflexivity.
Qed.

Lemma sort_by_perm {A} (key : A -> sort_key) :
  forall l r, sort_by key l = Ok r -> Permutation l r.
Proof.
  induction l as [|x l IH]; intros r Hr; cbn in Hr.
  - injection Hr as <-. apply perm_nil.
  - destruct (sort_by key l) as [s|]; cbn in Hr; [|discriminate].
    eapply Permutation_trans; [|eapply insert_by_perm; exact Hr].
    apply perm_skip. apply IH. reflexivity.
Qed.

(** A lap whose duration comes from neither time field has the span from
    its start to its end as duration. *)
Lemma build_lap_derived_duration i m s e :
  is_number (LapMsg.total_timer_time m) = None ->
  is_number (LapMsg.total_elapsed_time m) = None ->
  lap_start_time (build_lap i m) = Some s ->
  lap_end_time (build_lap i m) = Some e ->
  lap_duration_s (build_lap i m) = Some (total_seconds (e - s)).
Proof.
  unfold build_lap, safe_val. cbn.
  intros Ht He.
  destruct (LapMsg.total_timer_time m) as [[x|txt]|] eqn:Etimer;
    try discriminate Ht;
    destruct (LapMsg.total_elapsed_time m) as [[y|txt']|] eqn:Eelapsed;
    try discriminate He; cbn;
    destruct (LapMsg.start_time m) as [s'|]; cbn;
    destruct (LapMsg.timestamp m) as [e'|]; cbn;
    intros Hs Hend; try discriminate;
    injection Hs as ->; injection Hend as ->; reflexivity.
Qed.

(** C7: a lap returned by [collect_laps] whose message, the one at
    position [lap_index - 1] of the lap messages, has neither a numeric
    timer time nor a numeric elapsed time, and which has both a start and
    an end, has as duration the seconds from its start to its end: the
    float nearest to the microseconds between them divided by a million,
    which is that quotient itself whenever the quotient is a float. *)
Theorem derived_duration_is_end_minus_start (fitfile : FitFile)
    (laps : list lap_dict) (d : lap_dict) (m : LapMsg.t) (s e : instant) :
  collect_laps fitfile = Ok laps ->
  In d laps ->
  nth_error (lap_messages fitfile) (Z.to_nat (lap_index d - 1)) = Some m ->
  is_number (LapMsg.total_timer_time m) = None ->
  is_number (LapMsg.total_elapsed_time m) = None ->
  lap_start_time d = Some s ->
  lap_end_time d = Some e ->
  exists q : Q,
    lap_duration_s d = Some q /\
    is_double q /\
    (forall q' : Q, is_double q' ->
       (Qabs (q - ((e - s) # 1000000)) <= Qabs (q' - ((e - s) # 1000000)))%Q)
    /\
    (is_double ((e - s) # 1000000) -> (q == (e - s) # 1000000)%Q).
Proof.
  intros Hlaps Hin Hm Ht He Hs Hend.
  unfold collect_laps in Hlaps. cbn zeta in Hlaps.
  apply sort_by_perm in Hlaps.
  apply Permutation_sym in Hlaps.
  pose proof (Permutation_in d Hlaps Hin) as Hbuilt.
  destruct (build_laps_nth _ 0 d Hbuilt) as [i [m' [Hi Hd]]].
  cbn in Hd. subst d. cbn [lap_index build_lap] in Hm.
  replace (Z.to_nat (Z.of_nat i + 1 - 1)) with i in Hm by lia.
  rewrite Hi in Hm. injection Hm as ->.
  exists (total_seconds (e - s)).
  split; [apply build_lap_derived_duration; assumption|].
  unfold total_seconds.
  split; [apply nearest_double_is_double|]. split.
  - intros q'. apply nearest_double_nearest.
  - apply nearest_double_exact.
Qed.

Lemma derived_duration_is_end_minus_start_witness :
  let later := LapMsg.mk (Some 9000000) None (Some (Text "-"))
                 (Some 12500000) None None None None in
  let earlier := LapMsg.mk (Some 1000000) (Some (Num (inject_Z 5))) None
                   None None None None None in
  lap_duration_s (build_lap 0 later) = Some (7 # 2)%Q /\
  exists q : Q,
    lap_duration_s (build_lap 0 later) = Some q /\
    is_double q /\
    (forall q' : Q, is_double q' ->
       (Qabs (q - ((12500000 - 9000000) # 1000000))
        <= Qabs (q' - ((12500000 - 9000000) # 1000000)))%Q) /\
    (is_double ((12500000 - 9000000) # 1000000) ->
     (q == (12500000 - 9000000) # 1000000)%Q).
Proof.
  intros later earlier. split; [vm_compute; reflexivity|].
  apply (derived_duration_is_end_minus_start
           {| lap_messages := [later; earlier]; record_messages := [] |}
           [build_lap 1 earlier; build_lap 0 later]
           (build_lap 0 later) later 9000000 12500000).
  - vm_compute. reflexivity.
  - right. left. reflexivity.
  - reflexivity.
  - reflexivity.
  - reflexivity.
  - reflexivity.
  - reflexivity.
Defined.

(** ** Sorting laps with and without a start *)

Lemma same_kind_sym a b : same_kind a b = same_kind b a.
Proof. destruct a, b; reflexivity. Qed.

Lemma same_kind_trans a b c :
  same_kind a b = true -> same_kind b c = true -> same_kind a c = true.
Proof. destruct a, b, c; cbn; congruence. Qed.

Lemma key_lt_ok_same_kind a b r : key_lt a b = Ok r -> same_kind a b = true.
Proof. destruct a, b; cbn; intros H; [reflexivity|discriminate..|reflexivity]. Qed.

(** The sort returns only when all keys are of one kind. *)
Lemma sort_by_ok_same_kind {A} (key : A -> sort_key) :
  forall l r, sort_by key l = Ok r ->
  forall x y, In x l -> In y l -> same_kind (key x) (key y) = true.
Proof.
  induction l as [|a l IH]; intros r Hr x y Hx Hy; [contradiction|].
  cbn in Hr. destruct (sort_by key l) as [s|] eqn:Hs; cbn in Hr;
    [|discriminate].
  specialize (IH s eq_refl).
  assert (Ha : forall z, In z l -> same_kind (key z) (key a) = true).
  { intros z Hz. destruct s as [|b s'].
    - apply sort_by_perm in Hs. apply Permutation_sym in Hs.
      apply Permutation_nil in Hs. subst l. contradiction.
    - assert (Hb : In b l).
      { apply sort_by_perm in Hs. apply Permutation_sym in Hs.
        apply (Permutation_in b Hs). left. reflexivity. }
      cbn in Hr.
      destruct (key_lt (key b) (key a)) as [lt|] eqn:Hlt; [|discriminate].
      apply key_lt_ok_same_kind in Hlt.
      apply (same_kind_trans _ (key b)); [apply IH; assumption|exact Hlt]. }
  assert (Hrefl : same_kind (key a) (key a) = true) by (destruct (key a); reflexivity).
  destruct Hx as [<- | Hx], Hy as [<- | Hy].
  - exact Hrefl.
  - rewrite same_kind_sym. apply Ha. exact Hy.
  - apply Ha. exact Hx.
  - apply IH; assumption.
Qed.

Lemma sort_by_mixed_raises {A} (key : A -> sort_key) l x y :
  In x l -> In y l -> same_kind (key x) (key y) = false ->
  sort_by key l = Raise TypeError.
Proof.
  intros Hx Hy Hk. destruct (sort_by key l) as [r|[]] eqn:Hs; [|reflexivity].
  rewrite (sort_by_ok_same_kind key l r Hs x y Hx Hy) in Hk. discriminate.
Qed.

Lemma build_laps_in (msgs : list LapMsg.t) m :
  In m msgs -> forall k, exists i, In (build_lap i m) (build_laps k msgs).
Proof.
  induction msgs as [|a msgs IH]; intros Hin k; [contradiction|].
  destruct Hin as [-> | Hin].
  - exists k. left. reflexivity.
  - destruct (IH Hin (S k)) as [i Hi]. exists i. right. exact Hi.
Qed.

Lemma laps_with_mixed_starts_do_not_sort (msgs : list LapMsg.t) m1 m2 :
  In m1 msgs -> In m2 msgs ->
  LapMsg.start_time m1 = None -> LapMsg.start_time m2 <> None ->
  sort_by start_key (build_laps 0 msgs) = Raise TypeError.
Proof.
  intros H1 H2 Hnone Hsome.
  destruct (build_laps_in msgs m1 H1 0) as [i1 Hi1].
  destruct (build_laps_in msgs m2 H2 0) as [i2 Hi2].
  apply (sort_by_mixed_raises start_key _ _ _ Hi1 Hi2).
  unfold start_key, build_lap, safe_val. cbn. rewrite Hnone.
  destruct (LapMsg.start_time m2); [reflexivity|contradiction].
Qed.

(** C2, where the code departs from the claim: when one lap message has
    no start time and another has one, [collect_laps] does not return the
    laps with the absent start first; sorting compares the key [0] of the
    one with the datetime of the other and raises [TypeError]. *)
Theorem collect_laps_mixed_starts_raise (fitfile : FitFile)
    (m1 m2 : LapMsg.t) :
  In m1 (lap_messages fitfile) -> In m2 (lap_messages fitfile) ->
  LapMsg.start_time m1 = None -> LapMsg.start_time m2 <> None ->
  collect_laps fitfile = Raise TypeError.
Proof.
  intros H1 H2 Hnone Hsome. unfold collect_laps. cbn zeta.
  exact (laps_with_mixed_starts_do_not_sort _ m1 m2 H1 H2 Hnone Hsome).
Qed.

Lemma collect_laps_mixed_starts_raise_witness :
  collect_laps
    {| lap_messages :=
         [LapMsg.mk None None None (Some 5000000) None None None None;
          LapMsg.mk (Some 1000000) (Some (Num (inject_Z 600))) None None
            None None None None];
       record_messages := [] |}
  = Raise TypeError.
Proof.
  apply (collect_laps_mixed_starts_raise _
           (LapMsg.mk None None None (Some 5000000) None None None None)
           (LapMsg.mk (Some 1000000) (Some (Num (inject_Z 600))) None None
              None None None None)).
  - left. reflexivity.
  - right. left. reflexivity.
  - reflexivity.
  - discriminate.
Defined.

(** C3, where the code departs from the claim: a lap message that lacks
    its start time, next to one that has it, makes the whole run fail with
    [TypeError]; no table is written. *)
Theorem convert_fails_on_a_missing_start (fitfile : FitFile)
    (m1 m2 : LapMsg.t) :
  In m1 (lap_messages fitfile) -> In m2 (lap_messages fitfile) ->
  LapMsg.start_time m1 = None -> LapMsg.start_time m2 <> None ->
  convert fitfile = Raise TypeError.
Proof.
  intros H1 H2 Hnone Hsome. unfold convert, collect_laps. cbn zeta.
  rewrite (laps_with_mixed_starts_do_not_sort _ m1 m2 H1 H2 Hnone Hsome).
  reflexivity.
Qed.

Lemma convert_fails_on_a_missing_start_witness :
  convert
    {| lap_messages :=
         [LapMsg.mk (Some 1000000) (Some (Num (inject_Z 600))) None None
            None None None None;
          LapMsg.mk None (Some (Num (inject_Z 300))) None None None None
            None None];
       record_messages :=
         [RecordMsg.mk (Some 1500000) None None None None] |}
  = Raise TypeError.
Proof.
  apply (convert_fails_on_a_missing_start _
           (LapMsg.mk None (Some (Num (inject_Z 300))) None None None None
              None None)
           (LapMsg.mk (Some 1000000) (Some (Num (inject_Z 600))) None None
              None None None None)).
  - right. left. reflexivity.
  - left. reflexivity.
  - reflexivity.
  - discriminate.
Defined.

(** ** Laps that all have a start, or all lack one *)

Ltac to_arith :=
  repeat match goal with
    | H : _ || _ = true |- _ => apply orb_true_iff in H
    | H : _ && _ = true |- _ => apply andb_true_iff in H as [? ?]
    | H : (_ <? _) = true |- _ => apply Z.ltb_lt in H
    | H : (_ <? _) = false |- _ => apply Z.ltb_ge in H
    | H : (_ =? _) = true |- _ => apply Z.eqb_eq in H
    | H : Ok _ = Ok _ |- _ => injection H as H
    | H : _ \/ _ |- _ => destruct H
    end.

Ltac stably_arith :=
  unfold stably_before, start_key, key_lt, same_kind in *;
  repeat match goal with
    | |- context [lap_start_time ?d] => destruct (lap_start_time d)
    | H : context [lap_start_time ?d] |- _ => destruct (lap_start_time d)
    end;
  try discriminate; try reflexivity; to_arith;
  rewrite ?orb_true_iff, ?andb_true_iff, ?Z.ltb_lt, ?Z.eqb_eq; lia.

Lemma stably_before_smaller_key y x :
  key_lt (start_key y) (start_key x) = Ok true -> stably_before y x = true.
Proof. intros H. stably_arith. Qed.

Lemma stably_before_not_larger x z :
  key_lt (start_key z) (start_key x) = Ok false ->
  lap_index x < lap_index z ->
  stably_before x z = true.
Proof. intros H Hi. stably_arith. Qed.

Lemma not_larger_trans x y z :
  key_lt (start_key y) (start_key x) = Ok false ->
  stably_before y z = true ->
  same_kind (start_key x) (start_key z) = true ->
  key_lt (start_key z) (start_key x) = Ok false.
Proof.
  intros H1 H2 H3.
  unfold stably_before, start_key, key_lt, same_kind in *.
  destruct (lap_start_time x), (lap_start_time y), (lap_start_time z);
    try discriminate; try reflexivity; to_arith; f_equal;
    apply Z.ltb_ge; lia.
Qed.

Lemma forallb_perm {A} (p : A -> bool) l l' :
  Permutation l l' -> forallb p l = true -> forallb p l' = true.
Proof.
  intros Hp H. apply forallb_forall. intros x Hx.
  rewrite forallb_forall in H. apply H.
  apply (Permutation_in x (Permutation_sym Hp) Hx).
Qed.

(** Inserting a lap numbered below all the laps of a stably sorted list
    keeps the list stably sorted. *)
Lemma insert_by_stable x :
  forall s,
  pairwise stably_before s = true ->
  (forall y, In y s -> lap_index x < lap_index y /\
                       same_kind (start_key x) (start_key y) = true) ->
  exists r, insert_by start_key x s = Ok r /\
            pairwise stably_before r = true.
Proof.
  induction s as [|y s IH]; intros Hs Hx.
  - exists [x]. split; reflexivity.
  - cbn in Hs. apply andb_true_iff in Hs as [Hy Hs].
    destruct (Hx y (or_introl eq_refl)) as [Hiy Hky].
    cbn [insert_by].
    destruct (key_lt (start_key y) (start_key x)) as [[|]|e] eqn:Hlt.
    + destruct (IH Hs (fun z Hz => Hx z (or_intror Hz))) as [r [Hr Hsorted]].
      exists (y :: r). cbn. rewrite Hr. cbn. split; [reflexivity|].
      rewrite Hsorted, andb_true_r.
      apply (forallb_perm _ (x :: s) r (insert_by_perm _ _ _ _ Hr)).
      cbn. rewrite Hy, andb_true_r.
      apply stably_before_smaller_key. exact Hlt.
    + exists (x :: y :: s). cbn. split; [reflexivity|].
      rewrite Hy, Hs, !andb_true_r.
      rewrite (stably_before_not_larger x y Hlt Hiy). cbn.
      apply forallb_forall. intros z Hz.
      destruct (Hx z (or_intror Hz)) as [Hiz Hkz].
      apply stably_before_not_larger; [|exact Hiz].
      apply (not_larger_trans x y z Hlt); [|exact Hkz].
      rewrite forallb_forall in Hy. apply Hy. exact Hz.
    + exfalso. destruct (start_key x), (start_key y); discriminate.
Qed.

Lemma sort_by_stable :
  forall l,
  pairwise (fun a b => (lap_index a <? lap_index b)
                       && same_kind (start_key a) (start_key b)) l = true ->
  exists r, sort_by start_key l = Ok r /\
            pairwise stably_before r = true.
Proof.
  induction l as [|x l IH]; intros Hl.
  - exists []. split; reflexivity.
  - cbn in Hl. apply andb_true_iff in Hl as [Hx Hl].
    destruct (IH Hl) as [s [Hs Hsorted]].
    destruct (insert_by_stable x s Hsorted) as [r [Hr Hr']].
    + intros y Hy. rewrite forallb_forall in Hx.
      apply sort_by_perm in Hs.
      specialize (Hx y (Permutation_in y (Permutation_sym Hs) Hy)).
      apply andb_true_iff in Hx as [Hi Hk]. apply Z.ltb_lt in Hi.
      split; assumption.
    + exists r. cbn. rewrite Hs. cbn. split; assumption.
Qed.

(** The laps the loop builds are numbered upwards, and when the messages
    all have a start time, or all lack it, their keys are of one kind. *)
Lemma build_laps_numbered (msgs : list LapMsg.t) :
  (forall m, In m msgs -> LapMsg.start_time m <> None) \/
  (forall m, In m msgs -> LapMsg.start_time m = None) ->
  forall k,
  pairwise (fun a b => (lap_index a <? lap_index b)
                       && same_kind (start_key a) (start_key b))
    (build_laps k msgs) = true.
Proof.
  induction msgs as [|m msgs IH]; intros Hu k; [reflexivity|].
  cbn. apply andb_true_iff. split.
  - apply forallb_forall. intros d Hd.
    destruct (build_laps_nth msgs (S k) d Hd) as [i [m' [Hi ->]]].
    apply nth_error_In in Hi.
    apply andb_true_iff. split.
    + cbn. apply Z.ltb_lt. lia.
    + unfold start_key, build_lap, safe_val. cbn.
      destruct Hu as [Hu|Hu].
      * pose proof (Hu m (or_introl eq_refl)).
        pose proof (Hu m' (or_intror Hi)).
        destruct (LapMsg.start_time m), (LapMsg.start_time m');
          try contradiction; reflexivity.
      * rewrite (Hu m (or_introl eq_refl)), (Hu m' (or_intror Hi)).
        reflexivity.
  - apply IH. destruct Hu as [Hu|Hu]; [left|right];
      intros m' Hm'; apply Hu; right; exact Hm'.
Qed.

(** When the lap messages all have a start time, or all lack it, the sort
    does not raise: [collect_laps] returns the built laps reordered so
    that each lap comes in front of the laps with a later start and, among
    laps with the same start, in front of those extracted after it; the
    [lap_index] values are those given at extraction. *)
Lemma stable_sort_of_uniform_starts (fitfile : FitFile) :
  (forall m, In m (lap_messages fitfile) -> LapMsg.start_time m <> None) \/
  (forall m, In m (lap_messages fitfile) -> LapMsg.start_time m = None) ->
  exists laps,
    collect_laps fitfile = Ok laps /\
    Permutation (build_laps 0 (lap_messages fitfile)) laps /\
    pairwise stably_before laps = true.
Proof.
  intros Hu. unfold collect_laps. cbn zeta.
  destruct (sort_by_stable _ (build_laps_numbered _ Hu 0)) as [r [Hr Hs]].
  exists r. split; [exact Hr|]. split; [|exact Hs].
  apply (sort_by_perm _ _ _ Hr).
Qed.

Example two_laps_with_the_same_start :
  option_map (map lap_index)
    match collect_laps
            {| lap_messages :=
                 [LapMsg.mk (Some 70) None None None None None None None;
                  LapMsg.mk (Some 10) None None None None None None None;
                  LapMsg.mk (Some 10) None None None None None None None];
               record_messages := [] |} with
    | Ok laps => Some laps
    | Raise _ => None
    end
  = Some [2; 3; 1].
Proof. reflexivity. Qed.

(** * Further properties of the code *)

(** ** What a classification result means *)

Lemma passed_not_covers iv t : passed iv t = true -> covers iv t = false.
Proof.
  destruct iv as [[id [s|]] [e|]]; unfold passed, covers; cbn; intros H;
    try reflexivity.
  - apply Z.ltb_lt in H. apply andb_false_iff. right. apply Z.leb_gt. exact H.
  - apply Z.ltb_lt in H. apply Z.leb_gt. exact H.
Qed.

(** Where the loop ends and what it went through to get there. *)
Lemma scan_outcome t (l : list interval) :
  forall i,
  let r := scan t l i in
  (forall j iv, (i <= j < snd r)%nat -> nth_error l j = Some iv ->
                passed iv t = true) /\
  match fst r with
  | Some id =>
      exists iv, nth_error l (snd r) = Some iv /\ iv_id iv = id /\
                 covers iv t = true
  | None =>
      (length l <= snd r)%nat \/
      exists id s e, nth_error l (snd r) = Some (id, Some s, Some e) /\
                     t < s /\ t <= e
  end.
Proof.
  apply (from_end_ind (length l)).
  - intros i Hi. cbn zeta. rewrite scan_exit by exact Hi. cbn.
    split; [intros j iv Hj; lia | left; exact Hi].
  - intros i Hi IH. cbn zeta in *.
    destruct (nth_error l i) as [iv|] eqn:Hnth;
      [|apply nth_error_None in Hnth; lia].
    assert (Hstep : passed iv t = true ->
              (forall j iv', (i <= j < snd (scan t l (i + 1)))%nat ->
                 nth_error l j = Some iv' -> passed iv' t = true)).
    { intros Hp j iv' Hj Hj'. destruct (Nat.eq_dec j i) as [->|Hne].
      - rewrite Hnth in Hj'. injection Hj' as <-. exact Hp.
      - apply (proj1 IH j); [lia|exact Hj']. }
    destruct (passed iv t) eqn:Hp.
    + rewrite (scan_advance t l i iv Hnth Hp).
      split; [apply Hstep; reflexivity | exact (proj2 IH)].
    + destruct (covers iv t) eqn:Hc.
      * rewrite (scan_hit t l i iv Hnth Hc). cbn.
        split; [intros j iv' Hj; lia|].
        exists iv. repeat split; assumption.
      * destruct iv as [[id [s|]] [e|]]; unfold passed, covers in Hp, Hc;
          cbn in Hp, Hc; try discriminate.
        -- apply Z.ltb_ge in Hp.
           assert (t < s) by
             (apply andb_false_iff in Hc as [Hc|Hc]; apply Z.leb_gt in Hc;
              lia).
           rewrite (scan_stop t l i id s e Hnth) by lia. cbn.
           split; [intros j iv' Hj; lia|].
           right. exists id, s, e. repeat split; [exact Hnth|lia|lia].
        -- apply Z.ltb_ge in Hp. apply Z.leb_gt in Hc. lia.
Qed.

(** X1: a call that returns a lap returns it together with the position of
    an interval that carries this lap index and contains the timestamp,
    bounds included; the position is at or behind the clamped cursor.  No
    timestamp is ever given a lap whose interval does not contain it. *)
Theorem classify_sound (ts : option instant) (l : list interval)
    (c id p : Z) :
  map_record_to_lap_index ts l c = (Some id, p) ->
  exists t iv,
    ts = Some t /\ nth_error l (Z.to_nat p) = Some iv /\ iv_id iv = id /\
    covers iv t = true /\
    Z.max 0 (Z.min c (Z.of_nat (length l) - 1)) <= p < Z.of_nat (length l).
Proof.
  intros Hcall. destruct ts as [t|]; [|discriminate Hcall].
  destruct l as [|iv0 l0] eqn:El; [discriminate Hcall|]. rewrite <- El in *.
  assert (Hl : l <> []) by (rewrite El; discriminate).
  rewrite classify_scan in Hcall by exact Hl.
  injection Hcall as Hfst Hsnd.
  destruct (scan_outcome t l (clamp c (length l))) as [_ Hout].
  rewrite Hfst in Hout. destruct Hout as [iv [Hiv [Hid Hcov]]].
  destruct (scan_bounds t l (clamp c (length l))) as [Hlo _].
  pose proof (nth_error_length _ _ _ Hiv) as Hlen.
  assert (Hn : (0 < length l)%nat) by lia.
  destruct (clamp_spec c (length l) Hn) as [Hc _].
  exists t, iv. subst p. rewrite Nat2Z.id.
  repeat split; try assumption; lia.
Qed.

Lemma classify_sound_witness :
  exists t iv,
    Some 15 = Some t /\
    nth_error [(1, Some 0, Some 9); (2, Some 10, Some 20)] (Z.to_nat 1)
    = Some iv /\ iv_id iv = 2 /\ covers iv t = true /\
    Z.max 0 (Z.min (-2) (Z.of_nat 2 - 1)) <= 1 < Z.of_nat 2.
Proof.
  apply (classify_sound (Some 15)
           [(1, Some 0, Some 9); (2, Some 10, Some 20)] (-2) 2 1).
  reflexivity.
Defined.

(** X2: in a sequence sorted by start the call returns the first interval
    at or behind the clamped cursor that contains the timestamp: no
    interval between the clamped cursor and the returned position contains
    it, and when no lap is returned no interval from the clamped cursor on
    contains it. *)
Theorem classify_first_match (l : list interval) (t c : Z)
    (r : option Z) (p : Z) :
  sorted_by_start l = true ->
  map_record_to_lap_index (Some t) l c = (r, p) ->
  forall j iv,
    Z.max 0 (Z.min c (Z.of_nat (length l) - 1)) <= Z.of_nat j ->
    nth_error l j = Some iv ->
    Z.of_nat j < p \/ r = None ->
    covers iv t = false.
Proof.
  intros Hsort Hcall j iv Hj Hiv Hcase.
  assert (Hl : l <> []) by (eapply nth_error_nonempty; exact Hiv).
  pose proof (nth_error_length _ _ _ Hiv) as Hjn.
  rewrite classify_scan in Hcall by exact Hl.
  injection Hcall as Hfst Hsnd.
  assert (Hn : (0 < length l)%nat) by lia.
  destruct (clamp_spec c (length l) Hn) as [Hc _].
  destruct (scan_outcome t l (clamp c (length l))) as [Hpassed Hout].
  destruct (Nat.lt_ge_cases j (snd (scan t l (clamp c (length l)))))
    as [Hlt|Hge].
  - apply passed_not_covers. apply (Hpassed j); [lia|exact Hiv].
  - destruct Hcase as [Hjp|Hnone]; [lia|].
    rewrite Hfst, Hnone in Hout.
    destruct Hout as [Hend | [id [s [e [Hstop [Hts Hte]]]]]]; [lia|].
    destruct (Nat.eq_dec j (snd (scan t l (clamp c (length l)))))
      as [Heq|Hne].
    + rewrite <- Heq, Hiv in Hstop. injection Hstop as ->.
      unfold covers. cbn. destruct (Z.leb_spec s t); [lia|reflexivity].
    + assert (Hlt : (snd (scan t l (clamp c (length l))) < j)%nat) by lia.
      pose proof (pairwise_nth _ l Hsort _ j _ iv Hlt Hstop Hiv) as Hle.
      cbn in Hle. unfold covers.
      destruct (iv_start iv) as [s'|]; [|discriminate].
      apply Z.leb_le in Hle.
      destruct (iv_end iv); destruct (Z.leb_spec s' t); try lia; reflexivity.
Qed.

Lemma classify_first_match_witness :
  covers (2, Some 10, Some 20) 5 = false.
Proof.
  apply (classify_first_match
           [(1, Some 0, Some 3); (2, Some 10, Some 20)] 5 0 None 1
           eq_refl eq_refl 1%nat (2, Some 10, Some 20)).
  - cbn. lia.
  - reflexivity.
  - right. reflexivity.
Defined.

(** ** Reusing the cursor *)

Lemma passed_later iv t t' :
  passed iv t = true -> t <= t' -> open_ended iv = false ->
  passed iv t' = true.
Proof.
  destruct iv as [[id [s|]] [e|]]; unfold passed, open_ended; cbn;
    intros Hp Ht Ho; try reflexivity; try discriminate.
  apply Z.ltb_lt in Hp. apply Z.ltb_lt. lia.
Qed.

Lemma only_last_open_nth (l : list interval) j iv :
  only_last_open l = true -> nth_error l j = Some iv ->
  (j + 1 < length l)%nat -> open_ended iv = false.
Proof.
  unfold only_last_open. intros Hall Hj Hlt.
  rewrite forallb_forall in Hall. apply negb_true_iff. apply Hall.
  apply (nth_error_In _ j). rewrite nth_error_firstn.
  destruct (Nat.ltb_spec j (length l - 1)); [exact Hj|lia].
Qed.

(** The scan for a later timestamp, started where the scan for an
    earlier one ended, ends where it would have ended from the start of
    the earlier one. *)
Lemma scan_reuse (l : list interval) (t t' : Z) (i0 : nat) :
  only_last_open l = true -> t <= t' -> (i0 < length l)%nat ->
  scan t' l (clamp (Z.of_nat (snd (scan t l i0))) (length l))
  = scan t' l i0.
Proof.
  intros Hopen Ht Hi0.
  set (p := snd (scan t l i0)).
  destruct (scan_bounds t l i0) as [Hlo Hhi]. fold p in Hlo, Hhi.
  destruct (scan_outcome t l i0) as [Hpassed _]. fold p in Hpassed.
  assert (Hq : (i0 <= clamp (Z.of_nat p) (length l))%nat /\
               (clamp (Z.of_nat p) (length l) <= p)%nat /\
               (clamp (Z.of_nat p) (length l) < length l)%nat)
    by (unfold clamp; lia).
  destruct Hq as [Hq1 [Hq2 Hq3]].
  symmetry. apply (scan_run t' l _ i0 Hq1); [|lia].
  intros j iv Hj Hiv.
  apply (passed_later iv t t'); [|exact Ht|].
  - apply (Hpassed j); [lia|exact Hiv].
  - apply (only_last_open_nth l j iv Hopen Hiv). lia.
Qed.

Lemma classify_reuse (l : list interval) (t t' c : Z) :
  only_last_open l = true -> t <= t' ->
  map_record_to_lap_index (Some t') l
    (snd (map_record_to_lap_index (Some t) l c))
  = map_record_to_lap_index (Some t') l c.
Proof.
  intros Hopen Ht.
  destruct l as [|iv0 l0] eqn:El; [reflexivity|]. rewrite <- El in *.
  assert (Hl : l <> []) by (rewrite El; discriminate).
  assert (Hn : (0 < length l)%nat) by (rewrite El; cbn; lia).
  rewrite !classify_scan by exact Hl. cbn [snd].
  destruct (clamp_spec c (length l) Hn) as [_ Hi0].
  rewrite (scan_reuse l t t' _ Hopen Ht Hi0). reflexivity.
Qed.

(** X3: when no interval in front of the last one is open-ended, the
    cursor returned for a timestamp can be used for every later timestamp:
    the call gives the same lap and the same cursor as with the cursor the
    first call was given. *)
Theorem cursor_reuse (l : list interval) (t t' c : Z) :
  only_last_open l = true -> t <= t' ->
  map_record_to_lap_index (Some t') l
    (snd (map_record_to_lap_index (Some t) l c))
  = map_record_to_lap_index (Some t') l c.
Proof.
  intros Hopen Ht.
  destruct l as [|iv0 l0] eqn:El; [reflexivity|]. rewrite <- El in *.
  assert (Hl : l <> []) by (rewrite El; discriminate).
  assert (Hn : (0 < length l)%nat) by (rewrite El; cbn; lia).
  rewrite !classify_scan by exact Hl. cbn [snd].
  destruct (clamp_spec c (length l) Hn) as [_ Hi0].
  f_equal; [f_equal|do 2 f_equal];
    exact (scan_reuse l t t' _ Hopen Ht Hi0).
Qed.

Lemma cursor_reuse_witness :
  map_record_to_lap_index (Some 25)
    [(1, Some 0, Some 9); (2, None, Some 12); (3, Some 20, None)]
    (snd (map_record_to_lap_index (Some 15)
            [(1, Some 0, Some 9); (2, None, Some 12); (3, Some 20, None)] 0))
  = map_record_to_lap_index (Some 25)
      [(1, Some 0, Some 9); (2, None, Some 12); (3, Some 20, None)] 0.
Proof.
  apply (cursor_reuse
           [(1, Some 0, Some 9); (2, None, Some 12); (3, Some 20, None)]
           15 25 0).
  - reflexivity.
  - lia.
Defined.

(** The rows written by the loop, with the lap index of each. *)
Lemma write_record_lap_index (l : list interval) :
  only_last_open l = true ->
  forall (recs : list RecordMsg.t) f ptr lo,
  (forall t', match lo with Some x => x <= t' | None => True end ->
     map_record_to_lap_index (Some t') l ptr
     = map_record_to_lap_index (Some t') l 0) ->
  nondecreasing_from lo recs = true ->
  exists rows,
    fst (fold_left (write_record l) recs (f, ptr)) = f ++ map RowLine rows /\
    map row_lap_index rows
    = map (fun rec =>
             fst (map_record_to_lap_index (RecordMsg.timestamp rec) l 0))
        recs.
Proof.
  intros Hopen.
  induction recs as [|rec recs IH]; intros f ptr lo Hinv Hmono.
  - exists []. cbn. rewrite app_nil_r. split; reflexivity.
  - cbn [fold_left]. unfold write_record at 2. unfold safe_val at 1.
    cbn [nondecreasing_from] in Hmono.
    assert (Hts : match RecordMsg.timestamp rec with
                  | Some _ => RecordMsg.timestamp rec
                  | None => None
                  end = RecordMsg.timestamp rec)
      by (destruct (RecordMsg.timestamp rec); reflexivity).
    rewrite Hts.
    destruct (RecordMsg.timestamp rec) as [t|] eqn:Et.
    + apply andb_true_iff in Hmono as [Hlo Hmono].
      assert (Hcall : map_record_to_lap_index (Some t) l ptr
                      = map_record_to_lap_index (Some t) l 0).
      { apply Hinv. destruct lo as [x|]; [apply Z.leb_le; exact Hlo|exact I]. }
      rewrite Hcall.
      destruct (map_record_to_lap_index (Some t) l 0) as [lap_idx ptr']
        eqn:Hres.
      match goal with
      | |- context [fold_left _ recs (writerow ?row f, ptr')] =>
          destruct (IH (writerow row f) ptr' (Some t)) as [rows [Hf Hrows]];
          [ | exact Hmono | exists (row :: rows) ]
      end.
      * intros t' Ht'.
        replace ptr' with (snd (map_record_to_lap_index (Some t) l 0))
          by (rewrite Hres; reflexivity).
        apply classify_reuse; assumption.
      * split.
        -- rewrite Hf. unfold writerow. rewrite <- app_assoc. reflexivity.
        -- cbn [map row_lap_index]. rewrite Hrows, Et, Hres. reflexivity.
    + cbn [map_record_to_lap_index].
      match goal with
      | |- context [fold_left _ recs (writerow ?row f, ptr)] =>
          destruct (IH (writerow row f) ptr lo Hinv Hmono)
            as [rows [Hf Hrows]];
          exists (row :: rows)
      end.
      split.
      * rewrite Hf. unfold writerow. rewrite <- app_assoc. reflexivity.
      * cbn [map row_lap_index]. rewrite Hrows, Et. reflexivity.
Qed.

(** X4: when the timestamps of the record messages never go back (absent
    ones aside) and no interval in front of the last one is open-ended,
    the cursor kept from row to row changes nothing: every row of the
    table carries the lap that a call starting at the first interval gives
    for the timestamp of its record. *)
Theorem records_table_lap_index (fitfile : FitFile) (l : list interval) :
  only_last_open l = true ->
  timestamps_nondecreasing (record_messages fitfile) = true ->
  exists rows,
    write_records_csv fitfile l = HeaderLine record_fields :: map RowLine rows
    /\ map row_lap_index rows
       = map (fun rec =>
                fst (map_record_to_lap_index (RecordMsg.timestamp rec) l 0))
           (record_messages fitfile).
Proof.
  intros Hopen Hmono. unfold write_records_csv, writeheader.
  destruct (write_record_lap_index l Hopen (record_messages fitfile)
              ([] ++ [HeaderLine record_fields]) 0 None)
    as [rows [Hf Hrows]].
  - intros t' _. reflexivity.
  - exact Hmono.
  - exists rows. split; [exact Hf|exact Hrows].
Qed.

Lemma records_table_lap_index_witness :
  let l := [(1, Some 0, Some 9); (2, Some 10, None)] in
  let recs := [RecordMsg.mk (Some 4) None None None None;
               RecordMsg.mk None None None None None;
               RecordMsg.mk (Some 9) None None None None;
               RecordMsg.mk (Some 30) None None None None] in
  exists rows,
    write_records_csv {| lap_messages := []; record_messages := recs |} l
    = HeaderLine record_fields :: map RowLine rows
    /\ map row_lap_index rows
       = map (fun rec =>
                fst (map_record_to_lap_index (RecordMsg.timestamp rec) l 0))
           recs.
Proof.
  intros l recs.
  apply (records_table_lap_index
           {| lap_messages := []; record_messages := recs |} l);
    reflexivity.
Defined.

(** ** What the rows of the per-sample table carry *)

Lemma classify_some_covers (ts : option instant) (l : list interval)
    (c id : Z) :
  fst (map_record_to_lap_index ts l c) = Some id ->
  exists t iv, ts = Some t /\ In iv l /\ iv_id iv = id /\
               covers iv t = true.
Proof.
  intros Hcall. destruct ts as [t|]; [|discriminate Hcall].
  destruct l as [|iv0 l0] eqn:El; [discriminate Hcall|]. rewrite <- El in *.
  rewrite classify_scan in Hcall by (rewrite El; discriminate).
  cbn [fst] in Hcall.
  destruct (scan_outcome t l (clamp c (length l))) as [_ Hout].
  rewrite Hcall in Hout. destruct Hout as [iv [Hiv [Hid Hcov]]].
  exists t, iv. repeat split; try assumption.
  apply (nth_error_In _ _ Hiv).
Qed.

(** Without a default, [safe_val] is the field itself. *)
Lemma safe_val_none {M A} (msg : M) (name : M -> option A) :
  safe_val msg name None = name msg.
Proof. unfold safe_val. destruct (name msg); reflexivity. Qed.

Lemma write_record_calls (l : list interval) (recs : list RecordMsg.t) :
  forall f ptr,
  exists rows,
    fst (fold_left (write_record l) recs (f, ptr)) = f ++ map RowLine rows /\
    Forall2 (fun rec row =>
               row_timestamp row = iso_dt (RecordMsg.timestamp rec) /\
               exists p, row_lap_index row
                         = fst (map_record_to_lap_index
                                  (RecordMsg.timestamp rec) l p))
      recs rows.
Proof.
  induction recs as [|rec recs IH]; intros f ptr.
  - exists []. cbn. rewrite app_nil_r. split; [reflexivity|constructor].
  - cbn [fold_left]. unfold write_record at 2. unfold safe_val at 1.
    assert (Hts : match RecordMsg.timestamp rec with
                  | Some _ => RecordMsg.timestamp rec
                  | None => None
                  end = RecordMsg.timestamp rec)
      by (destruct (RecordMsg.timestamp rec); reflexivity).
    rewrite Hts.
    destruct (map_record_to_lap_index (RecordMsg.timestamp rec) l ptr)
      as [lap_idx ptr'] eqn:Hres.
    match goal with
    | |- context [fold_left _ recs (writerow ?row f, ptr')] =>
        destruct (IH (writerow row f) ptr') as [rows [Hf Hrows]];
        exists (row :: rows)
    end.
    split.
    + rewrite Hf. unfold writerow. rewrite <- app_assoc. reflexivity.
    + constructor; [|exact Hrows]. cbn.
      split; [rewrite safe_val_none; reflexivity|].
      exists ptr. rewrite Hres. reflexivity.
Qed.

(** X5: in the per-sample table a row carries a lap only when its record
    has a timestamp and the interval sequence has an interval with that
    lap index that contains the timestamp.  A record without timestamp
    gets an empty timestamp cell and no lap, and with no interval at all
    no row has a lap. *)
Theorem records_table_sound (fitfile : FitFile) (l : list interval) :
  exists rows,
    write_records_csv fitfile l = HeaderLine record_fields :: map RowLine rows
    /\ forall k rec row,
         nth_error (record_messages fitfile) k = Some rec ->
         nth_error rows k = Some row ->
         (forall id, row_lap_index row = Some id ->
            exists t iv, RecordMsg.timestamp rec = Some t /\ In iv l /\
                         iv_id iv = id /\ covers iv t = true) /\
         (RecordMsg.timestamp rec = None ->
            row_timestamp row = None /\ row_lap_index row = None) /\
         (l = [] -> row_lap_index row = None).
Proof.
  unfold write_records_csv, writeheader.
  destruct (write_record_calls l (record_messages fitfile)
              ([] ++ [HeaderLine record_fields]) 0) as [rows [Hf Hrows]].
  exists rows. split; [exact Hf|].
  intros k rec row Hrec Hrow.
  assert (Hpair : row_timestamp row = iso_dt (RecordMsg.timestamp rec) /\
                  exists p, row_lap_index row
                            = fst (map_record_to_lap_index
                                     (RecordMsg.timestamp rec) l p)).
  { clear Hf. revert k Hrec Hrow.
    induction Hrows as [|rec' row' recs' rows' Hhead Htail IH];
      intros k Hrec Hrow; [destruct k; discriminate|].
    destruct k as [|k]; cbn in Hrec, Hrow.
    - injection Hrec as <-. injection Hrow as <-. exact Hhead.
    - exact (IH k Hrec Hrow). }
  destruct Hpair as [Hcell [p Hp]].
  split; [|split].
  - intros id Hid. rewrite Hid in Hp. symmetry in Hp.
    exact (classify_some_covers _ _ _ _ Hp).
  - intros Hnone. rewrite Hnone in Hcell, Hp. split; [exact Hcell|exact Hp].
  - intros ->. rewrite Hp.
    destruct (RecordMsg.timestamp rec); reflexivity.
Qed.

(** ** What [collect_laps] returns *)

Lemma collect_laps_built (fitfile : FitFile) laps d :
  collect_laps fitfile = Ok laps -> In d laps ->
  exists i m, nth_error (lap_messages fitfile) i = Some m /\
              d = build_lap i m.
Proof.
  intros Hlaps Hin. unfold collect_laps in Hlaps. cbn zeta in Hlaps.
  apply sort_by_perm, Permutation_sym in Hlaps.
  destruct (build_laps_nth _ 0 d (Permutation_in d Hlaps Hin))
    as [i [m [Hi Hd]]].
  exists i, m. split; [exact Hi|exact Hd].
Qed.

Lemma build_laps_indices (msgs : list LapMsg.t) :
  forall k, map lap_index (build_laps k msgs)
            = map (fun i => Z.of_nat i + 1) (seq k (length msgs)).
Proof.
  induction msgs as [|m msgs IH]; intros k; [reflexivity|].
  cbn. rewrite IH. reflexivity.
Qed.

(** X6: when [collect_laps] returns, it returns one lap per lap message;
    the [lap_index] values are the numbers 1 to n, each once, whatever the
    order of the laps; and the lap numbered [i] has the start time and the
    average and distance fields of the [i]-th message. *)
Theorem collect_laps_numbering (fitfile : FitFile) (laps : list lap_dict) :
  collect_laps fitfile = Ok laps ->
  length laps = length (lap_messages fitfile) /\
  Permutation (map lap_index laps)
    (map (fun i => Z.of_nat i + 1) (seq 0 (length (lap_messages fitfile))))
  /\ NoDup (map lap_index laps) /\
  forall d, In d laps ->
    exists m,
      nth_error (lap_messages fitfile) (Z.to_nat (lap_index d - 1)) = Some m
      /\ lap_start_time d = LapMsg.start_time m
      /\ lap_avg_power d = LapMsg.avg_power m
      /\ lap_avg_heart_rate d = LapMsg.avg_heart_rate m
      /\ lap_avg_cadence d = LapMsg.avg_cadence m
      /\ lap_total_distance_m d = LapMsg.total_distance m.
Proof.
  intros Hlaps.
  assert (Hperm : Permutation (build_laps 0 (lap_messages fitfile)) laps)
    by (apply (sort_by_perm start_key); exact Hlaps).
  assert (Hidx : Permutation (map lap_index laps)
                   (map (fun i => Z.of_nat i + 1)
                      (seq 0 (length (lap_messages fitfile))))).
  { rewrite <- build_laps_indices. apply Permutation_sym.
    apply Permutation_map. exact Hperm. }
  split; [|split; [exact Hidx|split]].
  - rewrite <- (Permutation_length Hperm). apply build_laps_length.
  - apply (Permutation_NoDup (Permutation_sym Hidx)).
    apply Finite.Injective_map_NoDup; [|apply seq_NoDup].
    intros a b Hab. lia.
  - intros d Hin.
    destruct (collect_laps_built fitfile laps d Hlaps Hin)
      as [i [m [Hi ->]]].
    exists m. cbn [lap_index build_lap].
    replace (Z.to_nat (Z.of_nat i + 1 - 1)) with i by lia.
    split; [exact Hi|].
    cbn. rewrite !safe_val_none. repeat split; reflexivity.
Qed.

Lemma collect_laps_numbering_witness :
  let later := LapMsg.mk (Some 90) None None None
                 (Some (Num (inject_Z 250))) None None None in
  let earlier := LapMsg.mk (Some 10) None None None
                   (Some (Num (inject_Z 180))) None None None in
  Permutation (map lap_index [build_lap 1 earlier; build_lap 0 later])
    (map (fun i => Z.of_nat i + 1) (seq 0 2)).
Proof.
  intros later earlier.
  apply (collect_laps_numbering
           {| lap_messages := [later; earlier]; record_messages := [] |}
           [build_lap 1 earlier; build_lap 0 later]).
  reflexivity.
Defined.

Lemma sorted_laps_uniform (msgs : list LapMsg.t) r :
  sort_by start_key (build_laps 0 msgs) = Ok r -> uniform_starts msgs.
Proof.
  intros Hr. destruct msgs as [|m0 rest] eqn:E; [left; intros m []|].
  rewrite <- E in *.
  assert (Hm0 : In m0 msgs) by (rewrite E; left; reflexivity).
  destruct (LapMsg.start_time m0) as [t0|] eqn:H0.
  - left. intros m Hm Hnone.
    rewrite (laps_with_mixed_starts_do_not_sort msgs m m0 Hm Hm0 Hnone)
      in Hr by (rewrite H0; discriminate).
    discriminate.
  - right. intros m Hm. destruct (LapMsg.start_time m) as [t|] eqn:Hs;
      [|reflexivity].
    rewrite (laps_with_mixed_starts_do_not_sort msgs m0 m Hm0 Hm H0)
      in Hr by (rewrite Hs; discriminate).
    discriminate.
Qed.

Lemma pairwise_map_impl {A B} (r : A -> A -> bool) (r' : B -> B -> bool)
    (f : A -> B) :
  (forall a b, r a b = true -> r' (f a) (f b) = true) ->
  forall l, pairwise r l = true -> pairwise r' (map f l) = true.
Proof.
  intros Himp. induction l as [|a l IH]; intros Hl; [reflexivity|].
  cbn in *. apply andb_true_iff in Hl as [Ha Hl].
  rewrite (IH Hl), andb_true_r.
  rewrite forallb_forall in *. intros b Hb.
  apply in_map_iff in Hb as [a' [<- Ha']]. apply Himp, Ha, Ha'.
Qed.

Lemma stably_before_start_le a b :
  stably_before a b = true ->
  start_le (lap_start_time a) (lap_start_time b) = true.
Proof.
  unfold stably_before, start_le.
  destruct (lap_start_time a), (lap_start_time b); intros H;
    try reflexivity; try discriminate.
  apply Z.leb_le. apply orb_true_iff in H as [H|H].
  - apply Z.ltb_lt in H. lia.
  - apply andb_true_iff in H as [H _]. apply Z.eqb_eq in H. lia.
Qed.

(** X8: whenever [collect_laps] returns, the laps are in stable order by
    start (an earlier start first, and laps with the same start in the
    order of their [lap_index]), and the interval sequence [convert]
    builds from them is sorted by start, as the lookup expects. *)
Theorem collect_laps_sorted (fitfile : FitFile) (laps : list lap_dict) :
  collect_laps fitfile = Ok laps ->
  pairwise stably_before laps = true /\
  sorted_by_start (map interval_of laps) = true.
Proof.
  intros Hlaps.
  pose proof (sorted_laps_uniform _ laps Hlaps) as Hu.
  destruct (stable_sort_of_uniform_starts fitfile Hu)
    as [laps' [Hlaps' [_ Hsorted]]].
  rewrite Hlaps in Hlaps'. injection Hlaps' as <-.
  split; [exact Hsorted|].
  unfold sorted_by_start.
  apply (pairwise_map_impl stably_before); [|exact Hsorted].
  intros a b Hab. cbn. apply stably_before_start_le. exact Hab.
Qed.

Lemma collect_laps_sorted_witness :
  let later := LapMsg.mk (Some 90) None None None None None None None in
  let earlier := LapMsg.mk (Some 10) None None None None None None None in
  pairwise stably_before
    [build_lap 1 earlier; build_lap 2 earlier; build_lap 0 later] = true /\
  sorted_by_start
    (map interval_of
       [build_lap 1 earlier; build_lap 2 earlier; build_lap 0 later]) = true.
Proof.
  intros later earlier.
  apply (collect_laps_sorted
           {| lap_messages := [later; earlier; earlier];
              record_messages := [] |}).
  reflexivity.
Defined.

(** ** End and duration of a lap *)

Lemma collect_laps_source (fitfile : FitFile) laps d m :
  collect_laps fitfile = Ok laps -> In d laps ->
  nth_error (lap_messages fitfile) (Z.to_nat (lap_index d - 1)) = Some m ->
  d = build_lap (Z.to_nat (lap_index d - 1)) m.
Proof.
  intros Hlaps Hin Hm.
  destruct (collect_laps_built fitfile laps d Hlaps Hin) as [i [m' [Hi Hd]]].
  assert (Hidx : Z.to_nat (lap_index d - 1) = i)
    by (rewrite Hd; cbn; lia).
  rewrite Hidx in Hm |- *. rewrite Hi in Hm. injection Hm as <-. exact Hd.
Qed.

Lemma build_lap_timed i m s x :
  lap_start_time (build_lap i m) = Some s ->
  is_number (LapMsg.total_timer_time m) = Some x \/
  is_number (LapMsg.total_timer_time m) = None /\
  is_number (LapMsg.total_elapsed_time m) = Some x ->
  lap_end_time (build_lap i m) = Some (s + timedelta_seconds (float x)) /\
  lap_duration_s (build_lap i m) = Some (float x).
Proof.
  unfold build_lap. cbn. rewrite !safe_val_none.
  intros Hs Hx. rewrite Hs.
  destruct Hx as [Ht | [Ht He]]; rewrite Ht; [|rewrite He];
    split; reflexivity.
Qed.

(** X9: for a lap with a start, the end and the duration come from the
    same field, the timer time when it is numeric, otherwise the elapsed
    time when that is numeric, and when that number [x] is not negative
    they agree: the duration is the float nearest to [x], the end is not
    in front of the start, so that the interval of the lap contains its
    own start, and the microseconds from the start to the end are the
    duration times a million to within half a microsecond and the
    rounding of one float product, [2^-34]. *)
Theorem lap_end_and_duration_agree (fitfile : FitFile)
    (laps : list lap_dict) (d : lap_dict) (m : LapMsg.t) (s : instant)
    (x : Q) :
  collect_laps fitfile = Ok laps ->
  In d laps ->
  nth_error (lap_messages fitfile) (Z.to_nat (lap_index d - 1)) = Some m ->
  lap_start_time d = Some s ->
  is_number (LapMsg.total_timer_time m) = Some x \/
  is_number (LapMsg.total_timer_time m) = None /\
  is_number (LapMsg.total_elapsed_time m) = Some x ->
  (0 <= x)%Q ->
  exists (e : instant) (q : Q),
    lap_end_time d = Some e /\
    lap_duration_s d = Some q /\
    is_double q /\
    (forall q' : Q, is_double q' -> (Qabs (q - x) <= Qabs (q' - x))%Q) /\
    s <= e /\
    covers (interval_of d) s = true /\
    (Qabs (inject_Z (e - s) - q * 1000000) <= (1 # 2) + 2 ^ (-34))%Q.
Proof.
  intros Hlaps Hin Hm Hs Hx Hpos.
  pose proof (collect_laps_source fitfile laps d m Hlaps Hin Hm) as Hd.
  rewrite Hd in Hs.
  destruct (build_lap_timed _ m s x Hs Hx) as [Hend Hdur].
  rewrite <- Hd in Hs, Hend, Hdur.
  pose proof (nearest_double_nonneg x Hpos) as Hq.
  destruct (timedelta_seconds_spec (float x) Hq) as [Htd Herr].
  exists (s + timedelta_seconds (float x)), (float x).
  split; [exact Hend|]. split; [exact Hdur|].
  split; [apply nearest_double_is_double|].
  split; [intros q'; apply nearest_double_nearest|].
  split; [lia|]. split.
  - unfold covers, interval_of, iv_start, iv_end. cbn.
    rewrite Hs, Hend. apply andb_true_iff. split; apply Z.leb_le; lia.
  - replace (s + timedelta_seconds (float x) - s)
      with (timedelta_seconds (float x)) by lia.
    exact Herr.
Qed.

Lemma lap_end_and_duration_agree_witness :
  let m := LapMsg.mk (Some 1000000) (Some (Text "?"))
             (Some (Num (5 # 2))) (Some 77) None None None None in
  (lap_end_time (build_lap 0 m) = Some 3500000 /\
   lap_duration_s (build_lap 0 m) = Some (5 # 2)%Q) /\
  exists (e : instant) (q : Q),
    lap_end_time (build_lap 0 m) = Some e /\
    lap_duration_s (build_lap 0 m) = Some q /\
    is_double q /\
    (forall q' : Q, is_double q' ->
       (Qabs (q - (5 # 2)) <= Qabs (q' - (5 # 2)))%Q) /\
    1000000 <= e /\
    covers (interval_of (build_lap 0 m)) 1000000 = true /\
    (Qabs (inject_Z (e - 1000000) - q * 1000000) <= (1 # 2) + 2 ^ (-34))%Q.
Proof.
  intros m. split; [split; vm_compute; reflexivity|].
  apply (lap_end_and_duration_agree
           {| lap_messages := [m]; record_messages := [] |}
           [build_lap 0 m] (build_lap 0 m) m 1000000 (5 # 2)).
  - vm_compute. reflexivity.
  - left. reflexivity.
  - reflexivity.
  - reflexivity.
  - right. split; reflexivity.
  - discriminate.
Defined.

(** ** The lap table *)

Lemma write_lap_rows (laps : list lap_dict) :
  forall f, fold_left write_lap laps f = f ++ map RowLine (map lap_row_of laps).
Proof.
  induction laps as [|lap laps IH]; intros f.
  - cbn. rewrite app_nil_r. reflexivity.
  - cbn [fold_left map]. rewrite IH. unfold write_lap, writerow.
    rewrite <- app_assoc. reflexivity.
Qed.

(** X10: the lap table is one header line followed by one row per lap, in
    the order of the laps given; the start and end cells of a row are
    empty exactly when the lap has no start, respectively no end, and the
    other cells are those of the lap. *)
Theorem laps_table_one_row_per_lap (laps : list lap_dict) :
  exists rows,
    write_laps_csv laps = HeaderLine lap_fields :: map RowLine rows /\
    length rows = length laps /\
    map lrow_lap_index rows = map lap_index laps /\
    forall k lap row,
      nth_error laps k = Some lap -> nth_error rows k = Some row ->
      (lrow_lap_start_time row = None <-> lap_start_time lap = None) /\
      (lrow_lap_end_time row = None <-> lap_end_time lap = None) /\
      lrow_lap_index row = lap_index lap /\
      lrow_lap_duration_s row = lap_duration_s lap /\
      lrow_lap_avg_power row = lap_avg_power lap /\
      lrow_lap_avg_heart_rate row = lap_avg_heart_rate lap /\
      lrow_lap_avg_cadence row = lap_avg_cadence lap /\
      lrow_lap_total_distance_m row = lap_total_distance_m lap.
Proof.
  exists (map lap_row_of laps).
  split; [|split; [|split]].
  - unfold write_laps_csv, writeheader. cbn zeta. apply write_lap_rows.
  - apply length_map.
  - rewrite map_map. reflexivity.
  - intros k lap row Hlap Hrow.
    rewrite nth_error_map, Hlap in Hrow. injection Hrow as <-.
    cbn. unfold iso_dt.
    destruct (lap_start_time lap), (lap_end_time lap);
      repeat split; intros; try reflexivity; try discriminate.
Qed.

(** ** The two tables together *)

(** Every row of the per-sample table has the lap of some call on the
    interval sequence. *)
Lemma records_rows_lap (fitfile : FitFile) (l : list interval) :
  exists rows,
    write_records_csv fitfile l = HeaderLine record_fields :: map RowLine rows
    /\ length rows = length (record_messages fitfile)
    /\ forall row, In row rows ->
         exists ts p,
           row_lap_index row = fst (map_record_to_lap_index ts l p).
Proof.
  unfold write_records_csv, writeheader.
  destruct (write_record_calls l (record_messages fitfile)
              ([] ++ [HeaderLine record_fields]) 0) as [rows [Hf Hrows]].
  exists rows. split; [exact Hf|]. split.
  - symmetry. apply (Forall2_length Hrows).
  - clear Hf. induction Hrows as [|rec row recs rows [_ [p Hp]] _ IH];
      intros row' Hin; [contradiction|].
    destruct Hin as [<- | Hin]; [|exact (IH row' Hin)].
    exists (RecordMsg.timestamp rec), p. exact Hp.
Qed.

(** X11: when [convert] returns, the per-sample table has one row per
    record message and the lap table one row per lap message, each behind
    its header, and every lap index in the per-sample table is the lap
    index of a row of the lap table, a number from 1 to the number of lap
    messages. *)
Theorem convert_tables (fitfile : FitFile)
    (records_csv : list (csv_line record_row))
    (laps_csv : list (csv_line lap_row)) :
  convert fitfile = Ok (records_csv, laps_csv) ->
  exists rrows lrows,
    records_csv = HeaderLine record_fields :: map RowLine rrows /\
    laps_csv = HeaderLine lap_fields :: map RowLine lrows /\
    length rrows = length (record_messages fitfile) /\
    length lrows = length (lap_messages fitfile) /\
    forall row id, In row rrows -> row_lap_index row = Some id ->
      In id (map lrow_lap_index lrows) /\
      1 <= id <= Z.of_nat (length (lap_messages fitfile)).
Proof.
  unfold convert. intros Hconv.
  destruct (collect_laps fitfile) as [laps|] eqn:Hlaps; [|discriminate].
  cbn in Hconv. injection Hconv as <- <-.
  destruct (records_rows_lap fitfile (map interval_of laps))
    as [rrows [Hr [Hrlen Hrlap]]].
  exists rrows, (map lap_row_of laps).
  split; [exact Hr|]. split.
  { unfold write_laps_csv, writeheader. cbn zeta. apply write_lap_rows. }
  split; [exact Hrlen|]. split.
  { rewrite length_map.
    unfold collect_laps in Hlaps. cbn zeta in Hlaps.
    apply sort_by_perm in Hlaps.
    rewrite <- (Permutation_length Hlaps). apply build_laps_length. }
  intros row id Hin Hid.
  destruct (Hrlap row Hin) as [ts [p Hp]]. rewrite Hid in Hp. symmetry in Hp.
  destruct (classify_some_covers _ _ _ _ Hp) as [t [iv [_ [Hiv [Hidv _]]]]].
  apply in_map_iff in Hiv as [d [<- Hd]]. cbn in Hidv. subst id.
  split.
  - rewrite map_map. cbn. apply in_map. exact Hd.
  - destruct (collect_laps_built fitfile laps d Hlaps Hd) as [i [m [Hi ->]]].
    pose proof (nth_error_length _ _ _ Hi). cbn. lia.
Qed.

Lemma convert_tables_witness :
  let lap := LapMsg.mk (Some 0) (Some (Num (inject_Z 600))) None None
               None None None None in
  let sample t lap_idx :=
    RowLine {| row_timestamp := Some (isoformat t);
               row_power := None; row_heart_rate := None;
               row_cadence := None; row_distance_m := None;
               row_lap_index := lap_idx |} in
  exists rrows lrows,
    [HeaderLine record_fields; sample 0 (Some 1);
     sample 300000000 (Some 1); sample 900000000 None]
    = HeaderLine record_fields :: map RowLine rrows /\
    [HeaderLine lap_fields; RowLine (lap_row_of (build_lap 0 lap))]
    = HeaderLine lap_fields :: map RowLine lrows /\
    length rrows = 3%nat /\ length lrows = 1%nat /\
    forall row id, In row rrows -> row_lap_index row = Some id ->
      In id (map lrow_lap_index lrows) /\ 1 <= id <= Z.of_nat 1.
Proof.
  intros lap sample.
  apply (convert_tables
           {| lap_messages := [lap];
              record_messages :=
                [RecordMsg.mk (Some 0) None None None None;
                 RecordMsg.mk (Some 300000000) None None None None;
                 RecordMsg.mk (Some 900000000) None None None None] |}).
  vm_compute. reflexivity.
Defined.

(** X12: when [convert] returns and a lap message lacks its start time,
    no row of the per-sample table has a lap: the laps then all lack a
    start, and an interval without start is never matched. *)
Theorem no_start_no_lap (fitfile : FitFile)
    (records_csv : list (csv_line record_row))
    (laps_csv : list (csv_line lap_row)) (m : LapMsg.t) :
  convert fitfile = Ok (records_csv, laps_csv) ->
  In m (lap_messages fitfile) -> LapMsg.start_time m = None ->
  forall row, In (RowLine row) records_csv -> row_lap_index row = None.
Proof.
  unfold convert. intros Hconv Hm Hnone row Hrow.
  destruct (collect_laps fitfile) as [laps|] eqn:Hlaps; [|discriminate].
  cbn in Hconv. injection Hconv as <- <-.
  assert (Hall : forall m', In m' (lap_messages fitfile) ->
                            LapMsg.start_time m' = None).
  { destruct (sorted_laps_uniform _ laps Hlaps) as [Hu|Hu]; [|exact Hu].
    exfalso. exact (Hu m Hm Hnone). }
  destruct (records_rows_lap fitfile (map interval_of laps))
    as [rrows [Hr [_ Hrlap]]].
  rewrite Hr in Hrow. destruct Hrow as [Hrow|Hrow]; [discriminate|].
  apply in_map_iff in Hrow as [row' [Heq Hin]]. injection Heq as ->.
  destruct (Hrlap row Hin) as [ts [p Hp]].
  destruct (row_lap_index row) as [id|]; [|reflexivity].
  symmetry in Hp.
  destruct (classify_some_covers _ _ _ _ Hp) as [t [iv [_ [Hiv [_ Hcov]]]]].
  apply in_map_iff in Hiv as [d [<- Hd]].
  destruct (collect_laps_built fitfile laps d Hlaps Hd) as [i [m' [Hi ->]]].
  unfold covers, interval_of, iv_start in Hcov. cbn in Hcov.
  rewrite safe_val_none, (Hall m' (nth_error_In _ _ Hi)) in Hcov.
  discriminate.
Qed.

Lemma no_start_no_lap_witness :
  row_lap_index
    {| row_timestamp := Some (isoformat 7); row_power := None;
       row_heart_rate := None; row_cadence := None; row_distance_m := None;
       row_lap_index := None |} = None.
Proof.
  apply (no_start_no_lap
           {| lap_messages :=
                [LapMsg.mk None (Some (Num (inject_Z 60))) None (Some 9)
                   None None None None];
              record_messages :=
                [RecordMsg.mk (Some 7) None None None None] |}
           _ _
           (LapMsg.mk None (Some (Num (inject_Z 60))) None (Some 9)
              None None None None) eq_refl).
  - left. reflexivity.
  - reflexivity.
  - right. left. reflexivity.
Defined.

(** ** Sorted, non-overlapping intervals *)

Lemma covers_start iv t :
  covers iv t = true -> exists s, iv_start iv = Some s /\ s <= t.
Proof.
  unfold covers. destruct (iv_start iv) as [s|]; [|discriminate].
  intros H. exists s. split; [reflexivity|].
  destruct (iv_end iv); [apply andb_true_iff in H as [H _]|];
    apply Z.leb_le in H; exact H.
Qed.

(** The scan gets to the interval that contains the timestamp. *)
Lemma classify_covering (l : list interval) (j : nat) (iv : interval)
    (t c : Z) :
  sorted_by_start l = true -> non_overlapping l = true ->
  nth_error l j = Some iv -> covers iv t = true -> c <= Z.of_nat j ->
  map_record_to_lap_index (Some t) l c = (Some (iv_id iv), Z.of_nat j).
Proof.
  intros Hsort Hdisj Hj Hcov Hc.
  pose proof (nth_error_length _ _ _ Hj) as Hlen.
  destruct (covers_start iv t Hcov) as [s [Hs Hst]].
  rewrite classify_scan by (eapply nth_error_nonempty; exact Hj).
  rewrite (scan_run t l j (clamp c (length l))).
  - rewrite (scan_hit t l j _ Hj Hcov). reflexivity.
  - apply clamp_le; assumption.
  - intros i iv' Hi Hiv'.
    apply (not_covered_passed iv' s t); [| |exact Hst].
    + destruct (covers iv' t) eqn:Hci; [|reflexivity].
      pose proof (pairwise_nth _ l Hdisj i j iv' iv (proj2 Hi) Hiv' Hj) as Ho.
      apply negb_true_iff in Ho.
      assert (overlaps iv' iv = true) as Ho'
        by (apply overlaps_spec; exists t; split; assumption).
      congruence.
    + rewrite <- Hs.
      exact (pairwise_nth _ l Hsort i j iv' iv (proj2 Hi) Hiv' Hj).
  - lia.
Qed.

(** X14: in a sequence sorted by start and pairwise non-overlapping, a
    timestamp contained in an interval, with or without end, is given the
    lap of that interval and its position, from every cursor at or in
    front of it; a timestamp that no interval contains is given no lap. *)
Theorem classify_exact (l : list interval) (t c : Z) :
  sorted_by_start l = true -> non_overlapping l = true ->
  (forall j iv, nth_error l j = Some iv -> covers iv t = true ->
     c <= Z.of_nat j ->
     map_record_to_lap_index (Some t) l c = (Some (iv_id iv), Z.of_nat j)) /\
  ((forall iv, In iv l -> covers iv t = false) ->
   fst (map_record_to_lap_index (Some t) l c) = None).
Proof.
  intros Hsort Hdisj. split.
  - intros j iv Hj Hcov Hc.
    exact (classify_covering l j iv t c Hsort Hdisj Hj Hcov Hc).
  - intros Hnone.
    destruct (fst (map_record_to_lap_index (Some t) l c)) as [id|] eqn:Hres;
      [|reflexivity].
    destruct (classify_some_covers _ _ _ _ Hres)
      as [t' [iv [Ht [Hiv [_ Hcov]]]]].
    injection Ht as <-. rewrite (Hnone iv Hiv) in Hcov. discriminate.
Qed.

Lemma classify_exact_witness :
  map_record_to_lap_index (Some 40)
    [(1, Some 0, Some 9); (2, Some 10, Some 19); (3, Some 20, None)] 1
  = (Some 3, 2) /\
  fst (map_record_to_lap_index (Some (-5))
         [(1, Some 0, Some 9); (2, Some 10, Some 19); (3, Some 20, None)] 1)
  = None.
Proof.
  split.
  - apply (proj1 (classify_exact
                    [(1, Some 0, Some 9); (2, Some 10, Some 19);
                     (3, Some 20, None)] 40 1 eq_refl eq_refl)
             2%nat (3, Some 20, None)); [reflexivity|reflexivity|].
    cbn. lia.
  - apply (proj2 (classify_exact
                    [(1, Some 0, Some 9); (2, Some 10, Some 19);
                     (3, Some 20, None)] (-5) 1 eq_refl eq_refl)).
    intros iv [<- | [<- | [<- | []]]]; reflexivity.
Defined.

(** X15: with intervals sorted by start, pairwise non-overlapping and
    open-ended at most in the last place, and record timestamps that never
    go back, the per-sample table is right row by row: a record whose
    timestamp an interval contains gets the lap of that interval, and a
    record without timestamp, or with a timestamp no interval contains,
    gets none. *)
Theorem records_table_exact (fitfile : FitFile) (l : list interval) :
  sorted_by_start l = true -> non_overlapping l = true ->
  only_last_open l = true ->
  timestamps_nondecreasing (record_messages fitfile) = true ->
  exists rows,
    write_records_csv fitfile l = HeaderLine record_fields :: map RowLine rows
    /\ forall k rec row,
         nth_error (record_messages fitfile) k = Some rec ->
         nth_error rows k = Some row ->
         match RecordMsg.timestamp rec with
         | None => row_lap_index row = None
         | Some t =>
             (forall iv, In iv l -> covers iv t = true ->
                         row_lap_index row = Some (iv_id iv)) /\
             ((forall iv, In iv l -> covers iv t = false) ->
              row_lap_index row = None)
         end.
Proof.
  intros Hsort Hdisj Hopen Hmono.
  unfold write_records_csv, writeheader.
  destruct (write_record_lap_index l Hopen (record_messages fitfile)
              ([] ++ [HeaderLine record_fields]) 0 None)
    as [rows [Hf Hrows]];
    [intros t' _; reflexivity | exact Hmono |].
  exists rows. split; [exact Hf|].
  intros k rec row Hrec Hrow.
  assert (Hlap : row_lap_index row
                 = fst (map_record_to_lap_index
                          (RecordMsg.timestamp rec) l 0)).
  { pose proof (f_equal (fun x => nth_error x k) Hrows) as Hk.
    cbn beta in Hk. rewrite !nth_error_map, Hrec, Hrow in Hk.
    injection Hk as Hk. exact Hk. }
  rewrite Hlap. destruct (RecordMsg.timestamp rec) as [t|]; [|reflexivity].
  split.
  - intros iv Hiv Hcov. apply In_nth_error in Hiv as [j Hj].
    assert (Hc : 0 <= Z.of_nat j) by lia.
    exact (f_equal fst (classify_covering l j iv t 0 Hsort Hdisj Hj Hcov Hc)).
  - intros Hnone.
    destruct (fst (map_record_to_lap_index (Some t) l 0)) as [id|] eqn:Hres;
      [|reflexivity].
    destruct (classify_some_covers _ _ _ _ Hres)
      as [t' [iv [Ht [Hiv [_ Hcov]]]]].
    injection Ht as <-. rewrite (Hnone iv Hiv) in Hcov. discriminate.
Qed.

Lemma records_table_exact_witness :
  let l := [(1, Some 0, Some 9); (2, Some 10, None)] in
  let recs := [RecordMsg.mk (Some 4) None None None None;
               RecordMsg.mk None None None None None;
               RecordMsg.mk (Some 30) None None None None] in
  exists rows,
    write_records_csv {| lap_messages := []; record_messages := recs |} l
    = HeaderLine record_fields :: map RowLine rows
    /\ forall k rec row,
         nth_error recs k = Some rec -> nth_error rows k = Some row ->
         match RecordMsg.timestamp rec with
         | None => row_lap_index row = None
         | Some t =>
             (forall iv, In iv l -> covers iv t = true ->
                         row_lap_index row = Some (iv_id iv)) /\
             ((forall iv, In iv l -> covers iv t = false) ->
              row_lap_index row = None)
         end.
Proof.
  intros l recs.
  apply (records_table_exact
           {| lap_messages := []; record_messages := recs |} l);
    reflexivity.
Defined.

(** X16: a call repeated with the same timestamp and the cursor it
    returned gives the same lap and the same cursor again, for every
    interval sequence. *)
Theorem classify_repeat (l : list interval) (t c : Z) :
  map_record_to_lap_index (Some t) l
    (snd (map_record_to_lap_index (Some t) l c))
  = map_record_to_lap_index (Some t) l c.
Proof.
  destruct l as [|iv0 l0] eqn:El; [reflexivity|]. rewrite <- El in *.
  assert (Hl : l <> []) by (rewrite El; discriminate).
  assert (Hn : (0 < length l)%nat) by (rewrite El; cbn; lia).
  rewrite !classify_scan by exact Hl. cbn [snd].
  set (i0 := clamp c (length l)).
  set (p := snd (scan t l i0)).
  destruct (clamp_spec c (length l) Hn) as [_ Hi0]. fold i0 in Hi0.
  destruct (scan_bounds t l i0) as [Hlo Hhi]. fold p in Hlo, Hhi.
  destruct (scan_outcome t l i0) as [Hpassed _]. fold p in Hpassed.
  assert (Hq : (i0 <= clamp (Z.of_nat p) (length l))%nat /\
               (clamp (Z.of_nat p) (length l) <= p)%nat /\
               (clamp (Z.of_nat p) (length l) < length l)%nat)
    by (unfold clamp; lia).
  destruct Hq as [Hq1 [Hq2 Hq3]].
  assert (Hsame : scan t l (clamp (Z.of_nat p) (length l)) = scan t l i0).
  { symmetry. apply (scan_run t l _ i0 Hq1); [|lia].
    intros j iv Hj Hiv. apply (Hpassed j); [lia|exact Hiv]. }
  rewrite Hsame. reflexivity.
Qed.
